(** * Actiance message export: transcript assembly

    A shallow embedding of
    [server/enterprise/message_export/actiance_export/actiance_export.go]
    and the properties of its transcript assembly: membership
    reconstruction, leave ordering, record classification, attachment
    entries, error propagation and delivery.

    Conventions of the embedding.
    - Go [int64] timestamps are [Z]; the code only compares and copies them.
    - Go strings are byte strings: [string], compared with [String.ltb]
      (bytewise lexicographic order, as Go's [<] on strings).
    - Go maps are [gmap]; ranging over a map visits its entries in an
      unspecified order, modelled as an arbitrary permutation of
      [map_to_list].
    - Pointer fields that the code dereferences unconditionally are plain
      values; pointer fields it tests against [nil] are [option]s.
    - A [*model.AppError] result is a sum: [inl] carries the error. *)

From Stdlib Require Import ZArith String Ascii List Lia.
From Stdlib Require OrderedTypeEx.
From stdpp Require Import base option list gmap strings sorting.

Local Open Scope Z_scope.

(** ** Data model *)

(** The underlying cause reported by a store or by a file backend. *)
Definition error := string.

(** [model.AppError], with the cause attached by [Wrap]. *)
Record AppError := NewAppError {
  Where : string;
  Id : string;
  StatusCode : Z;
  wrapped : option error
}.

Definition Wrap (e : AppError) (cause : error) : AppError :=
  {| Where := Where e; Id := Id e; StatusCode := StatusCode e;
     wrapped := Some cause |}.

Definition StatusInternalServerError : Z := 500.

Module model.

(** The fields of [model.MessageExport] read by the exporter. *)
Record MessageExport := {
  ChannelId : string;
  PostId : string;
  PostCreateAt : Z;
  PostDeleteAt : option Z;
  PostMessage : string;
  PostProps : option string;
  PostFileIds : list string;
  UserEmail : string;
  UserId : string;
  Username : string;
  IsBot : bool
}.

(** The fields of [model.FileInfo] read by the exporter. *)
Record FileInfo := {
  Name : string;
  Path : string;
  DeleteAt : Z
}.

End model.

Module common_export.

(** An entry of the lists returned by [GetJoinsAndLeavesForChannel];
    joins and leaves carry the same three fields. *)
Record MemberEvent := {
  Datetime : Z;
  Email : string;
  IsBot : bool
}.

Record ChannelMember := {
  cm_Email : string;
  cm_UserId : string;
  cm_IsBot : bool;
  cm_Username : string
}.

Record MetadataChannel := {
  ChannelId : string;
  ChannelType : string;
  ChannelName : string;
  ChannelDisplayName : string;
  StartTime : Z;
  EndTime : Z
}.

Record Metadata := {
  Channels : gmap string MetadataChannel;
  MessagesCount : Z;
  AttachmentsCount : Z;
  md_StartTime : Z;
  md_EndTime : Z
}.

End common_export.

Record JoinExport := {
  je_UserEmail : string;
  je_UserType : string;
  JoinTime : Z;
  je_CorporateEmailID : string
}.

Record LeaveExport := {
  le_UserEmail : string;
  le_UserType : string;
  LeaveTime : Z;
  le_CorporateEmailID : string
}.

Record PostExport := {
  pe_UserEmail : string;
  pe_UserType : string;
  PostTime : Z;
  Message : string;
  PreviewsPost : string
}.

Record FileUploadStartExport := {
  fs_UserEmail : string;
  UploadStartTime : Z;
  fs_Filename : string;
  fs_FilePath : string
}.

Record FileUploadStopExport := {
  ft_UserEmail : string;
  UploadStopTime : Z;
  ft_Filename : string;
  ft_FilePath : string;
  Status : string
}.

(** The members of [ChannelExport.Elements] ([[]any] in the source). *)
Inductive Element :=
  | PostElement (p : PostExport)
  | UploadStartElement (s : FileUploadStartExport)
  | UploadStopElement (s : FileUploadStopExport).

Record ChannelExport := {
  Perspective : string;
  ce_ChannelId : string;
  RoomId : string;
  ce_StartTime : Z;
  JoinEvents : list JoinExport;
  Elements : list Element;
  UploadStarts : list FileUploadStartExport;
  UploadStops : list FileUploadStopExport;
  LeaveEvents : list LeaveExport;
  ce_EndTime : Z
}.

Record RootNode := {
  XMLNS_attr : string;
  rn_Channels : list ChannelExport
}.

Definition XMLNS := "http://www.w3.org/2001/XMLSchema-instance".
Definition ActianceExportFilename := "actiance_export.xml".
Definition ActianceWarningFilename := "warning.txt".

#[global] Instance LeaveExport_eq_dec : EqDecision LeaveExport.
Proof. solve_decision. Defined.
#[global] Instance JoinExport_eq_dec : EqDecision JoinExport.
Proof. solve_decision. Defined.

(** ** Membership reconstruction ([buildChannelExport], lines 252-300) *)

Record StillJoinedInfo := {
  sj_Time : Z;
  sj_Type : string
}.

#[global] Instance StillJoinedInfo_eq_dec : EqDecision StillJoinedInfo.
Proof. solve_decision. Defined.

(** The zero value Go yields when a key is missing from the map. *)
Definition StillJoinedInfo_zero : StillJoinedInfo :=
  {| sj_Time := 0; sj_Type := "" |}.

Definition userTypeOf (isBot : bool) : string :=
  if isBot then "bot" else "user".

Definition joinInfo (join : common_export.MemberEvent) : StillJoinedInfo :=
  {| sj_Time := common_export.Datetime join;
     sj_Type := userTypeOf (common_export.IsBot join) |}.

Definition joinEvent (join : common_export.MemberEvent) : JoinExport :=
  {| je_UserEmail := common_export.Email join;
     je_UserType := userTypeOf (common_export.IsBot join);
     JoinTime := common_export.Datetime join;
     je_CorporateEmailID := common_export.Email join |}.

Definition leaveEvent (leave : common_export.MemberEvent) : LeaveExport :=
  {| le_UserEmail := common_export.Email leave;
     le_UserType := userTypeOf (common_export.IsBot leave);
     LeaveTime := common_export.Datetime leave;
     le_CorporateEmailID := common_export.Email leave |}.

(** The map update of one iteration of the joins loop (lines 269-275). *)
Definition joinStep (stillJoined : gmap string StillJoinedInfo)
    (join : common_export.MemberEvent) : gmap string StillJoinedInfo :=
  match stillJoined !! common_export.Email join with
  | None => <[common_export.Email join := joinInfo join]> stillJoined
  | Some value =>
      if common_export.Datetime join >? sj_Time value
      then <[common_export.Email join := joinInfo join]> stillJoined
      else stillJoined
  end.

(** The map update of one iteration of the leaves loop (lines 288-290);
    a missing key reads as the zero value. *)
Definition leaveStep (stillJoined : gmap string StillJoinedInfo)
    (leave : common_export.MemberEvent) : gmap string StillJoinedInfo :=
  if common_export.Datetime leave >?
       sj_Time (default StillJoinedInfo_zero
                  (stillJoined !! common_export.Email leave))
  then delete (common_export.Email leave) stillJoined
  else stillJoined.

(** The joins loop (lines 258-276): appends a join event and updates the
    map, for each join in turn. *)
Definition joinsLoop (joins : list common_export.MemberEvent)
    : list JoinExport * gmap string StillJoinedInfo :=
  foldl (fun st join => (st.1 ++ [joinEvent join], joinStep st.2 join))
        ([], ∅) joins.

(** The leaves loop (lines 277-291), started from the state the joins
    loop left. *)
Definition leavesLoop (stillJoined : gmap string StillJoinedInfo)
    (leaves : list common_export.MemberEvent)
    : list LeaveExport * gmap string StillJoinedInfo :=
  foldl (fun st leave => (st.1 ++ [leaveEvent leave], leaveStep st.2 leave))
        ([], stillJoined) leaves.

(** The leave synthesized for one entry of the map (lines 294-299). *)
Definition stillJoinedLeave (endTime : Z)
    (entry : string * StillJoinedInfo) : LeaveExport :=
  {| le_UserEmail := entry.1;
     le_UserType := sj_Type entry.2;
     LeaveTime := endTime;
     le_CorporateEmailID := entry.1 |}.

(** [order] is an order in which [range] may visit the entries of [m]. *)
Definition rangeOrder {V} (m : gmap string V) (order : list (string * V))
    : Prop :=
  order ≡ₚ map_to_list m.

(** The map left after both loops. *)
Definition stillJoinedAfter (joins leaves : list common_export.MemberEvent)
    : gmap string StillJoinedInfo :=
  (leavesLoop (joinsLoop joins).2 leaves).2.

(** [channelExport.LeaveEvents] just before the sort (line 301), when the
    final map is ranged over in [order]. *)
Definition leaveEventsUnsorted (endTime : Z)
    (joins leaves : list common_export.MemberEvent)
    (order : list (string * StillJoinedInfo)) : list LeaveExport :=
  (leavesLoop (joinsLoop joins).2 leaves).1 ++ (stillJoinedLeave endTime <$> order).

(** The comparison passed to [sort.Slice] (lines 302-307), on the two
    elements the indices select. *)
Definition leaveLess (a b : LeaveExport) : bool :=
  if LeaveTime a =? LeaveTime b
  then String.ltb (le_UserEmail a) (le_UserEmail b)
  else LeaveTime a <? LeaveTime b.

(** [notLess less x y]: [less] does not put [y] before [x]. *)
Definition notLess {A} (less : A → A → bool) : relation A :=
  λ x y, less y x = false.

#[global] Instance notLess_dec {A} (less : A → A → bool) (x y : A) :
  Decision (notLess less x y).
Proof. unfold notLess. apply _. Defined.

(** What [sort.Slice] guarantees of the slice it leaves, for a [less] that
    is a strict weak order: the same elements, no later one less than an
    earlier one. The sort is not guaranteed to be stable, so elements that
    [less] does not separate may come out in either order. *)
Definition sortSlice {A} (less : A → A → bool) (input output : list A)
    : Prop :=
  output ≡ₚ input ∧ StronglySorted (notLess less) output.

(** A sort meeting that guarantee: merge sort on [notLess less]. *)
Definition sortSliceStable {A} (less : A → A → bool) (input : list A)
    : list A :=
  merge_sort (notLess less) input.

(** The sort key of a leave event. *)
Definition leaveKey (l : LeaveExport) : Z * string :=
  (LeaveTime l, le_UserEmail l).

(** The order (timestamp ascending, email ascending) on keys. *)
Definition keyLe (a b : Z * string) : Prop :=
  a.1 < b.1 ∨ (a.1 = b.1 ∧ String.leb a.2 b.2 = true).


Definition newline : string := String (ascii_of_nat 10) "".

(** An outcome of the export: the two results of [ActianceExport], and the
    writes issued to the export backend, in order, as (path, content). *)
Record Outcome := {
  warningCount : Z;
  appErr : option AppError;
  writes : list (string * string)
}.

(** The accumulators of the first loop of [ActianceExport]. *)
Record Buckets := {
  membersByChannel : gmap string (gmap string common_export.ChannelMember);
  metadata : common_export.Metadata;
  elementsByChannel : gmap string (list Element);
  allUploadedFiles : list model.FileInfo
}.

(** [m[c] = append(m[c], new...)] *)
Definition appendElements (m : gmap string (list Element)) (c : string)
    (new : list Element) : gmap string (list Element) :=
  <[c := default [] (m !! c) ++ new]> m.

(** ** Collaborators outside the file

    The store and the file backends are interfaces in the source
    ([store.Store], [filestore.FileBackend]); the helpers belong to the
    packages [common_export], [model], [encoding/json], [encoding/xml]
    and [path]. The exporter is parametric in all of them. *)
Class Collaborators := {
  (** The store: membership history of a channel in a window, and the
      file infos of a post (deleted ones included). *)
  ChannelMemberHistoryResult : Type;
  GetUsersInChannelDuring :
    Z → Z → string → error + list ChannelMemberHistoryResult;
  GetForPost : string → error + list model.FileInfo;
  (** [common_export] and [model] helpers. *)
  GetJoinsAndLeavesForChannel :
    Z → Z → list ChannelMemberHistoryResult →
    gmap string common_export.ChannelMember →
    list common_export.MemberEvent * list common_export.MemberEvent;
  ChannelTypeDisplayName : string → string;
  Metadata_Update :
    common_export.Metadata → model.MessageExport → Z → common_export.Metadata;
  MissingFileMessage : string;
  PreviewID : model.MessageExport → string;
  PostPropsDeleteBy : string;
  (** [json.Unmarshal] into a [map[string]any]: [None] when it reports an
      error. *)
  any : Type;
  json_Unmarshal : string → option (gmap string any);
  (** The XML document ([xml.Header] and the encoded root node), or the
      encoder's error. *)
  xml_Encode : RootNode → error + string;
  path_Join : string → string → string;
  (** The attachment backend's [Reader] (the content stands for the
      stream), and the writes to the export backend, by path and content
      ([None]: the write succeeded): [WriteFile] for the copies,
      [filestore.TryWriteFileContext] for the document and the manifest. *)
  Reader : string → error + string;
  WriteFile : string → string → option error;
  TryWriteFileContext : string → string → option error
}.

(** ** Scenarios

    Concrete stores, backends and inputs on which the properties below
    are exercised. *)

Module Scenario.

Definition alice : string := "alice@example.com".
Definition bob : string := "bob@example.com".
Definition carol : string := "carol@example.com".

(** A double quote, and the blob [{"deleteBy":"u1"}]. *)
Definition dq : string := String (ascii_of_nat 34) "".
Definition deletedProps : string :=
  "{" +:+ dq +:+ "deleteBy" +:+ dq +:+ ":" +:+ dq +:+ "u1" +:+ dq +:+ "}".

(** The window [1000, 2000] of the channel [c1]. *)
Definition channel : common_export.MetadataChannel :=
  {| common_export.ChannelId := "c1";
     common_export.ChannelType := "O";
     common_export.ChannelName := "town-square";
     common_export.ChannelDisplayName := "Town Square";
     common_export.StartTime := 1000;
     common_export.EndTime := 2000 |}.

Definition member (time : Z) (email : string) (isBot : bool)
    : common_export.MemberEvent :=
  {| common_export.Datetime := time;
     common_export.Email := email;
     common_export.IsBot := isBot |}.

(** Alice is present from the window start; Bob and Carol join later and
    leave at the same time, Carol's leave listed first. *)
Definition joins : list common_export.MemberEvent :=
  [member 1000 alice false; member 1500 carol false; member 1500 bob false].
Definition leaves : list common_export.MemberEvent :=
  [member 1600 carol false; member 1600 bob false].


Definition leave (time : Z) (email userType : string) : LeaveExport :=
  {| le_UserEmail := email; le_UserType := userType; LeaveTime := time;
     le_CorporateEmailID := email |}.

(** A store whose history lookup succeeds, and the two lists the helper
    returns. *)
Definition history (startTime endTime : Z) (channelId : string)
    : error + list unit :=
  inr [].
Definition historyDown (startTime endTime : Z) (channelId : string)
    : error + list unit :=
  inl "connection refused".
Definition joinsAndLeaves (startTime endTime : Z) (rows : list unit)
    (members : gmap string common_export.ChannelMember)
    : list common_export.MemberEvent * list common_export.MemberEvent :=
  (joins, leaves).
Definition typeName (channelType : string) : string := channelType.

(** A post of Alice in [c1]. *)
Definition post (postId message : string) (createAt : Z)
    (deleteAt : option Z) (props : option string) (fileIds : list string)
    : model.MessageExport :=
  {| model.ChannelId := "c1";
     model.PostId := postId;
     model.PostCreateAt := createAt;
     model.PostDeleteAt := deleteAt;
     model.PostMessage := message;
     model.PostProps := props;
     model.PostFileIds := fileIds;
     model.UserEmail := alice;
     model.UserId := "u1";
     model.Username := "alice";
     model.IsBot := false |}.

Definition noPreview (p : model.MessageExport) : string := "".

(** A decoder that knows the blob above. *)
Definition decode (blob : string) : option (gmap string unit) :=
  if decide (blob = deletedProps) then Some {[ "deleteBy" := () ]} else None.

(** Files of the posts [p1] (one live file) and [p2] (one deleted file);
    the lookup fails for any other post. *)
Definition report : model.FileInfo :=
  {| model.Name := "report.pdf"; model.Path := "files/report.pdf";
     model.DeleteAt := 0 |}.
Definition draft : model.FileInfo :=
  {| model.Name := "draft.txt"; model.Path := "files/draft.txt";
     model.DeleteAt := 1700 |}.
Definition filesOf (postId : string) : error + list model.FileInfo :=
  if decide (postId = "p1") then inr [report]
  else if decide (postId = "p2") then inr [draft]
  else inl "connection refused".

(** The metadata keeps one entry per channel, with the window above. *)
Definition update (md : common_export.Metadata) (p : model.MessageExport)
    (attachments : Z) : common_export.Metadata :=
  {| common_export.Channels :=
       <[model.ChannelId p := channel]> (common_export.Channels md);
     common_export.MessagesCount := common_export.MessagesCount md + 1;
     common_export.AttachmentsCount :=
       common_export.AttachmentsCount md + attachments;
     common_export.md_StartTime := 1000;
     common_export.md_EndTime := 2000 |}.

(** Backends: the draft cannot be opened; a write succeeds, or fails for
    want of space. *)
Definition encode (root : RootNode) : error + string := inr "<FileDump/>".
Definition join (dir name : string) : string := dir +:+ "/" +:+ name.
Definition reader (path : string) : error + string :=
  if decide (path = "files/draft.txt") then inl "no such file"
  else inr "content".
Definition writeOk (path content : string) : option error := None.
Definition writeFails (path content : string) : option error :=
  Some "disk full".

(** The input of the export scenario: a post with a file, a nil entry, a
    deleted post with the marker. *)
Definition posts : list (option model.MessageExport) :=
  [Some (post "p1" "hello" 1200 None None ["f1"]);
   None;
   Some (post "p3" "oops" 1300 (Some 1400) (Some deletedProps) [])].

Definition message (time : Z) (text : string) : Element :=
  PostElement
    {| pe_UserEmail := alice; pe_UserType := "user"; PostTime := time;
       Message := text; PreviewsPost := "" |}.

Definition elements : list Element :=
  [message 1200 "hello";
   UploadStartElement
     {| fs_UserEmail := alice; UploadStartTime := 1200;
        fs_Filename := "report.pdf"; fs_FilePath := "files/report.pdf" |};
   UploadStopElement
     {| ft_UserEmail := alice; UploadStopTime := 1200;
        ft_Filename := "report.pdf"; ft_FilePath := "files/report.pdf";
        Status := "Completed" |};
   message 1300 "oops";
   message 1400 "delete oops"].

Definition enter (time : Z) (email : string) : JoinExport :=
  {| je_UserEmail := email; je_UserType := "user"; JoinTime := time;
     je_CorporateEmailID := email |}.

(** The transcript of [c1] on that input. *)
Definition transcript : ChannelExport :=
  {| Perspective := "Town Square";
     ce_ChannelId := "c1";
     RoomId := "O - town-square - c1";
     ce_StartTime := 1000;
     JoinEvents := [enter 1000 alice; enter 1500 carol; enter 1500 bob];
     Elements := elements;
     UploadStarts := [];
     UploadStops := [];
     LeaveEvents :=
       [leave 1600 bob "user"; leave 1600 carol "user";
        leave 2000 alice "user"];
     ce_EndTime := 2000 |}.

(** An input whose second post has a file the store cannot look up. *)
Definition failingPosts : list (option model.MessageExport) :=
  [Some (post "p1" "hello" 1200 None None ["f1"]);
   Some (post "p9" "lost" 1250 None None ["f9"]);
   Some (post "p3" "oops" 1300 (Some 1400) (Some deletedProps) [])].


Definition root : RootNode :=
  {| XMLNS_attr := XMLNS; rn_Channels := [transcript] |}.

(** The collaborators of the scenarios. *)
Definition collaborators : Collaborators :=
  {| ChannelMemberHistoryResult := unit;
     GetUsersInChannelDuring := history;
     GetForPost := filesOf;
     GetJoinsAndLeavesForChannel := joinsAndLeaves;
     ChannelTypeDisplayName := typeName;
     Metadata_Update := update;
     MissingFileMessage := "File missing";
     PreviewID := noPreview;
     PostPropsDeleteBy := "deleteBy";
     any := unit;
     json_Unmarshal := decode;
     xml_Encode := encode;
     path_Join := join;
     Reader := reader;
     WriteFile := writeOk;
     TryWriteFileContext := writeOk |}.


(** The same with a store whose history lookup fails. *)
Definition historyFails : Collaborators :=
  {| ChannelMemberHistoryResult := unit;
     GetUsersInChannelDuring := historyDown;
     GetForPost := filesOf;
     GetJoinsAndLeavesForChannel := joinsAndLeaves;
     ChannelTypeDisplayName := typeName;
     Metadata_Update := update;
     MissingFileMessage := "File missing";
     PreviewID := noPreview;
     PostPropsDeleteBy := "deleteBy";
     any := unit;
     json_Unmarshal := decode;
     xml_Encode := encode;
     path_Join := join;
     Reader := reader;
     WriteFile := writeOk;
     TryWriteFileContext := writeOk |}.

(** The same with an export backend on which every copy fails. *)
Definition diskFull : Collaborators :=
  {| ChannelMemberHistoryResult := unit;
     GetUsersInChannelDuring := history;
     GetForPost := filesOf;
     GetJoinsAndLeavesForChannel := joinsAndLeaves;
     ChannelTypeDisplayName := typeName;
     Metadata_Update := update;
     MissingFileMessage := "File missing";
     PreviewID := noPreview;
     PostPropsDeleteBy := "deleteBy";
     any := unit;
     json_Unmarshal := decode;
     xml_Encode := encode;
     path_Join := join;
     Reader := reader;
     WriteFile := writeFails;
     TryWriteFileContext := writeOk |}.

End Scenario.

Section Exporter.

Context {env : Collaborators}.

(** *** [postToExportEntry] *)

Definition postToExportEntry (post : model.MessageExport) (createTime : Z)
    (message : string) : PostExport :=
  {| pe_UserEmail := model.UserEmail post;
     pe_UserType := userTypeOf (model.IsBot post);
     PostTime := createTime;
     Message := message;
     PreviewsPost := PreviewID post |}.

(** *** The message entries of one post (lines 122-132) *)

Definition messageEntry (post : model.MessageExport) : Element :=
  PostElement
    (postToExportEntry post (model.PostCreateAt post) (model.PostMessage post)).

Definition deleteEntries (post : model.MessageExport) : list Element :=
  match model.PostDeleteAt post, model.PostProps post with
  | Some postDeleteAt, Some postProps =>
      if postDeleteAt >? 0 then
        match json_Unmarshal postProps with
        | Some props =>
            match props !! PostPropsDeleteBy with
            | Some _ =>
                [PostElement
                   (postToExportEntry post postDeleteAt
                      ("delete " +:+ model.PostMessage post))]
            | None => []
            end
        | None => []
        end
      else []
  | _, _ => []
  end.

(** *** [postToAttachmentsEntries] *)

Definition uploadStart (post : model.MessageExport)
    (fileInfo : model.FileInfo) : FileUploadStartExport :=
  {| fs_UserEmail := model.UserEmail post;
     UploadStartTime := model.PostCreateAt post;
     fs_Filename := model.Name fileInfo;
     fs_FilePath := model.Path fileInfo |}.

Definition uploadStop (post : model.MessageExport)
    (fileInfo : model.FileInfo) : FileUploadStopExport :=
  {| ft_UserEmail := model.UserEmail post;
     UploadStopTime := model.PostCreateAt post;
     ft_Filename := model.Name fileInfo;
     ft_FilePath := model.Path fileInfo;
     Status := "Completed" |}.

(** The delete notice of one file (lines 229-231). *)
Definition deleteFileMessage (post : model.MessageExport)
    (fileInfo : model.FileInfo) : list Element :=
  match model.PostDeleteAt post with
  | Some postDeleteAt =>
      if model.DeleteAt fileInfo >? 0
      then [PostElement
              (postToExportEntry post postDeleteAt
                 ("delete " +:+ model.Path fileInfo))]
      else []
  | None => []
  end.

(** The four slices the function returns. *)
Record AttachmentsEntries := {
  startUploads : list Element;
  stopUploads : list Element;
  uploadedFiles : list model.FileInfo;
  deleteFileMessages : list Element
}.

Definition noAttachments : AttachmentsEntries :=
  {| startUploads := []; stopUploads := []; uploadedFiles := [];
     deleteFileMessages := [] |}.

(** One iteration of the loop over the file infos (lines 211-234). *)
Definition fileInfoStep (post : model.MessageExport)
    (acc : AttachmentsEntries) (fileInfo : model.FileInfo)
    : AttachmentsEntries :=
  {| startUploads :=
       startUploads acc ++ [UploadStartElement (uploadStart post fileInfo)];
     stopUploads :=
       stopUploads acc ++ [UploadStopElement (uploadStop post fileInfo)];
     uploadedFiles := uploadedFiles acc ++ [fileInfo];
     deleteFileMessages :=
       deleteFileMessages acc ++ deleteFileMessage post fileInfo |}.

Definition postToAttachmentsEntries (post : model.MessageExport)
    : AppError + AttachmentsEntries :=
  if bool_decide (length (model.PostFileIds post) = 0%nat)
  then inr noAttachments
  else
    match GetForPost (model.PostId post) with
    | inl err =>
        inl (Wrap (NewAppError "postToAttachmentsEntries"
                     "ent.message_export.actiance_export.get_attachment_error"
                     StatusInternalServerError None) err)
    | inr fileInfos => inr (foldl (fileInfoStep post) noAttachments fileInfos)
    end.

(** *** [buildChannelExport] *)

(** The value returned on success, from the two lists of
    [GetJoinsAndLeavesForChannel] and the sorted leave events; the two
    upload slices of the struct are never assigned. *)
Definition channelExportOf (channel : common_export.MetadataChannel)
    (elements : list Element) (joins : list common_export.MemberEvent)
    (sortedLeaves : list LeaveExport) : ChannelExport :=
  {| Perspective := common_export.ChannelDisplayName channel;
     ce_ChannelId := common_export.ChannelId channel;
     RoomId :=
       ChannelTypeDisplayName (common_export.ChannelType channel)
         +:+ " - " +:+ common_export.ChannelName channel
         +:+ " - " +:+ common_export.ChannelId channel;
     ce_StartTime := common_export.StartTime channel;
     JoinEvents := (joinsLoop joins).1;
     Elements := elements;
     UploadStarts := [];
     UploadStops := [];
     LeaveEvents := sortedLeaves;
     ce_EndTime := common_export.EndTime channel |}.

(** The results [buildChannelExport] may return: the run is fixed by the
    order in which the still-joined map is ranged over and by the slice
    the sort leaves. *)
Inductive buildChannelExport (channel : common_export.MetadataChannel)
    (members : gmap string common_export.ChannelMember)
    (elements : list Element) : AppError + ChannelExport → Prop :=
  | buildChannelExport_history_error err :
      GetUsersInChannelDuring (common_export.StartTime channel)
        (common_export.EndTime channel) (common_export.ChannelId channel)
        = inl err →
      buildChannelExport channel members elements
        (inl (Wrap (NewAppError "buildChannelExport"
                      "ent.get_users_in_channel_during"
                      StatusInternalServerError None) err))
  | buildChannelExport_ok channelMembersHistory joins leaves order sorted :
      GetUsersInChannelDuring (common_export.StartTime channel)
        (common_export.EndTime channel) (common_export.ChannelId channel)
        = inr channelMembersHistory →
      GetJoinsAndLeavesForChannel (common_export.StartTime channel)
        (common_export.EndTime channel) channelMembersHistory members
        = (joins, leaves) →
      rangeOrder (stillJoinedAfter joins leaves) order →
      sortSlice leaveLess
        (leaveEventsUnsorted (common_export.EndTime channel) joins leaves order)
        sorted →
      buildChannelExport channel members elements
        (inr (channelExportOf channel elements joins sorted)).

(** *** The loops of [ActianceExport] *)

Definition emptyBuckets : Buckets :=
  {| membersByChannel := ∅;
     metadata :=
       {| common_export.Channels := ∅;
          common_export.MessagesCount := 0;
          common_export.AttachmentsCount := 0;
          common_export.md_StartTime := 0;
          common_export.md_EndTime := 0 |};
     elementsByChannel := ∅;
     allUploadedFiles := [] |}.

Definition channelMemberOf (post : model.MessageExport)
    : common_export.ChannelMember :=
  {| common_export.cm_Email := model.UserEmail post;
     common_export.cm_UserId := model.UserId post;
     common_export.cm_IsBot := model.IsBot post;
     common_export.cm_Username := model.Username post |}.

(** The body of the first loop for a non-nil post (lines 122-154). *)
Definition postStep (st : Buckets) (post : model.MessageExport)
    : AppError + Buckets :=
  let c := model.ChannelId post in
  let elements1 := appendElements (elementsByChannel st) c [messageEntry post] in
  let elements2 := appendElements elements1 c (deleteEntries post) in
  match postToAttachmentsEntries post with
  | inl err => inl err
  | inr entries =>
      let elements3 := appendElements elements2 c (startUploads entries) in
      let elements4 := appendElements elements3 c (stopUploads entries) in
      let elements5 := appendElements elements4 c (deleteFileMessages entries) in
      inr {| membersByChannel :=
               <[c := <[model.UserId post := channelMemberOf post]>
                        (default ∅ (membersByChannel st !! c))]>
                 (membersByChannel st);
             metadata :=
               Metadata_Update (metadata st) post
                 (Z.of_nat (length (uploadedFiles entries)));
             elementsByChannel := elements5;
             allUploadedFiles := allUploadedFiles st ++ uploadedFiles entries |}
  end.

(** The first loop (lines 117-155); a nil post is skipped. *)
Fixpoint postsLoop (st : Buckets) (posts : list (option model.MessageExport))
    : AppError + Buckets :=
  match posts with
  | [] => inr st
  | None :: posts => postsLoop st posts
  | Some post :: posts =>
      match postStep st post with
      | inl err => inl err
      | inr st => postsLoop st posts
      end
  end.

(** The second loop (lines 159-171) over the channels in the order they
    are visited. *)
Inductive channelsLoop (st : Buckets)
    : list common_export.MetadataChannel →
      AppError + list ChannelExport → Prop :=
  | channelsLoop_done : channelsLoop st [] (inr [])
  | channelsLoop_error channel channels err :
      buildChannelExport channel
        (default ∅ (membersByChannel st !! common_export.ChannelId channel))
        (default [] (elementsByChannel st !! common_export.ChannelId channel))
        (inl err) →
      channelsLoop st (channel :: channels) (inl err)
  | channelsLoop_next channel channels channelExport rest :
      buildChannelExport channel
        (default ∅ (membersByChannel st !! common_export.ChannelId channel))
        (default [] (elementsByChannel st !! common_export.ChannelId channel))
        (inr channelExport) →
      channelsLoop st channels rest →
      channelsLoop st (channel :: channels)
        (match rest with
         | inl err => inl err
         | inr channelExports => inr (channelExport :: channelExports)
         end).

(** Lines 104-176: the root node and the uploaded files handed to
    [writeExport], or the error returned before. *)
Inductive assemble (posts : list (option model.MessageExport))
    : AppError + (RootNode * list model.FileInfo) → Prop :=
  | assemble_post_error err :
      postsLoop emptyBuckets posts = inl err →
      assemble posts (inl err)
  | assemble_channels st order result :
      postsLoop emptyBuckets posts = inr st →
      rangeOrder (common_export.Channels (metadata st)) order →
      channelsLoop st order.*2 result →
      assemble posts
        (match result with
         | inl err => inl err
         | inr channelExports =>
             inr ({| XMLNS_attr := XMLNS; rn_Channels := channelExports |},
                  allUploadedFiles st)
         end).

(** *** [writeExport] *)

Definition writeError (cause : error) : AppError :=
  Wrap (NewAppError "ActianceExport.AtianceExport"
          "ent.actiance.export.write_file.appError" 0 None) cause.

Definition warningLine (fileInfo : model.FileInfo) : string :=
  "Warning:" +:+ MissingFileMessage +:+ " - " +:+ model.Path fileInfo.

(** The loop over the uploaded files (lines 331-347): [inl] when a copy
    failed, with the cause; the writes issued so far either way. *)
Fixpoint copyLoop (exportDirectory : string)
    (files : list model.FileInfo) (missingFiles : list string)
    (issued : list (string * string))
    : (error * list (string * string)) + (list string * list (string * string)) :=
  match files with
  | [] => inr (missingFiles, issued)
  | fileInfo :: files =>
      match Reader (model.Path fileInfo) with
      | inl _ =>
          copyLoop exportDirectory files
            (missingFiles ++ [warningLine fileInfo]) issued
      | inr attachmentSrc =>
          let destPath := path_Join exportDirectory (model.Path fileInfo) in
          match WriteFile destPath attachmentSrc with
          | Some nErr => inl (nErr, issued ++ [(destPath, attachmentSrc)])
          | None =>
              copyLoop exportDirectory files missingFiles
                (issued ++ [(destPath, attachmentSrc)])
          end
      end
  end.

Definition writeExport (export : RootNode)
    (files : list model.FileInfo) (exportDirectory : string) : Outcome :=
  match xml_Encode export with
  | inl err =>
      {| warningCount := 0;
         appErr := Some (Wrap (NewAppError "ActianceExport.AtianceExport"
                                 "ent.actiance.export.marshalToXml.appError"
                                 0 None) err);
         writes := [] |}
  | inr xmlData =>
      let mainPath := path_Join exportDirectory ActianceExportFilename in
      match TryWriteFileContext mainPath xmlData with
      | Some err =>
          {| warningCount := 0; appErr := Some (writeError err);
             writes := [(mainPath, xmlData)] |}
      | None =>
          match copyLoop exportDirectory files [] [(mainPath, xmlData)] with
          | inl (nErr, issued) =>
              {| warningCount := 0; appErr := Some (writeError nErr);
                 writes := issued |}
          | inr (missingFiles, issued) =>
              let count := Z.of_nat (length missingFiles) in
              if count >? 0 then
                let warningPath :=
                  path_Join exportDirectory ActianceWarningFilename in
                let manifest := String.concat newline missingFiles in
                {| warningCount := count;
                   appErr :=
                     writeError <$> TryWriteFileContext warningPath manifest;
                   writes := issued ++ [(warningPath, manifest)] |}
              else
                {| warningCount := count; appErr := None; writes := issued |}
          end
      end
  end.

(** *** [ActianceExport] *)

Inductive ActianceExport (posts : list (option model.MessageExport))
    (exportDirectory : string) : Outcome → Prop :=
  | ActianceExport_run result :
      assemble posts result →
      ActianceExport posts exportDirectory
        (match result with
         | inl err =>
             {| warningCount := 0; appErr := Some err; writes := [] |}
         | inr (export, files) => writeExport export files exportDirectory
         end).

(** The events of a channel transcript in document order: the encoder
    walks the fields of [ChannelExport] in declaration order. *)
Inductive TranscriptEvent :=
  | JoinEntry (j : JoinExport)
  | ElementEntry (e : Element)
  | LeaveEntry (l : LeaveExport).

Definition transcriptEvents (c : ChannelExport) : list TranscriptEvent :=
  (JoinEntry <$> JoinEvents c)
  ++ (ElementEntry <$> Elements c)
  ++ (ElementEntry ∘ UploadStartElement <$> UploadStarts c)
  ++ (ElementEntry ∘ UploadStopElement <$> UploadStops c)
  ++ (LeaveEntry <$> LeaveEvents c).

(** *** Notions the properties are stated with *)

(** The non-nil posts of the input, in input order. *)
Definition acceptedPosts (posts : list (option model.MessageExport))
    : list model.MessageExport :=
  omap id posts.

(** The elements the first loop appends for one post, in the order it
    appends them (lines 122-140), when the attachment lookup succeeds. *)
Definition postElements (post : model.MessageExport) : list Element :=
  messageEntry post :: deleteEntries post
  ++ match postToAttachmentsEntries post with
     | inl _ => []
     | inr entries =>
         startUploads entries ++ stopUploads entries
         ++ deleteFileMessages entries
     end.

(** The attachment backend cannot open the file. *)
Definition unreadable (fileInfo : model.FileInfo) : bool :=
  match Reader (model.Path fileInfo) with
  | inl _ => true
  | inr _ => false
  end.

(** The file opens and its copy to the export backend fails. *)
Definition copyFails (exportDirectory : string) (fileInfo : model.FileInfo)
    : bool :=
  match Reader (model.Path fileInfo) with
  | inl _ => false
  | inr attachmentSrc =>
      match WriteFile (path_Join exportDirectory (model.Path fileInfo))
              attachmentSrc with
      | Some _ => true
      | None => false
      end
  end.

(** The copies issued for the files that open. *)
Definition copyWrites (exportDirectory : string) (files : list model.FileInfo)
    : list (string * string) :=
  omap (λ fileInfo,
          match Reader (model.Path fileInfo) with
          | inl _ => None
          | inr attachmentSrc =>
              Some (path_Join exportDirectory (model.Path fileInfo),
                    attachmentSrc)
          end) files.

(** The attachment lookup of a post fails. *)
Definition lookupFails (post : model.MessageExport) (cause : error) : Prop :=
  length (model.PostFileIds post) ≠ 0%nat
  ∧ GetForPost (model.PostId post) = inl cause.

End Exporter.

(** ** The still-joined map *)

Import common_export.

Lemma foldl_events_state {E X S} (ev : X → E) (step : S → X → S)
    (xs : list X) (acc : list E) (s : S) :
  foldl (λ st x, (st.1 ++ [ev x], step st.2 x)) (acc, s) xs
  = (acc ++ (ev <$> xs), foldl step s xs).
Proof.
  revert acc s. induction xs as [|x xs IH]; intros acc s; simpl.
  - by rewrite app_nil_r.
  - by rewrite IH, <-app_assoc.
Qed.

Lemma joinsLoop_eq joins :
  joinsLoop joins = (joinEvent <$> joins, foldl joinStep ∅ joins).
Proof. unfold joinsLoop. by rewrite foldl_events_state. Qed.

Lemma leavesLoop_eq m leaves :
  leavesLoop m leaves = (leaveEvent <$> leaves, foldl leaveStep m leaves).
Proof. unfold leavesLoop. by rewrite foldl_events_state. Qed.

Lemma stillJoinedAfter_eq joins leaves :
  stillJoinedAfter joins leaves
  = foldl leaveStep (foldl joinStep ∅ joins) leaves.
Proof. unfold stillJoinedAfter. by rewrite joinsLoop_eq, leavesLoop_eq. Qed.

Lemma leaveEventsUnsorted_eq endTime joins leaves order :
  leaveEventsUnsorted endTime joins leaves order
  = (leaveEvent <$> leaves) ++ (stillJoinedLeave endTime <$> order).
Proof. unfold leaveEventsUnsorted. by rewrite joinsLoop_eq, leavesLoop_eq. Qed.

(** One join: the entry is overwritten exactly when there is none or the
    join is strictly later. *)
Lemma joinStep_overwrite m join :
  (m !! Email join = None
   ∨ ∃ value, m !! Email join = Some value ∧ sj_Time value < Datetime join) →
  joinStep m join = <[Email join := joinInfo join]> m.
Proof.
  unfold joinStep. intros [->|(value & -> & Hlt)]; [done|].
  by rewrite (proj2 (Z.gtb_lt _ _)) by lia.
Qed.

Lemma joinStep_keep m join value :
  m !! Email join = Some value → Datetime join ≤ sj_Time value →
  joinStep m join = m.
Proof.
  unfold joinStep. intros -> Hle.
  destruct (Z.gtb_spec (Datetime join) (sj_Time value)); [lia|done].
Qed.

Lemma leaveStep_remove m leave value :
  m !! Email leave = Some value → sj_Time value < Datetime leave →
  leaveStep m leave = delete (Email leave) m.
Proof.
  unfold leaveStep. intros -> Hlt; simpl.
  by rewrite (proj2 (Z.gtb_lt _ _)) by lia.
Qed.

Lemma leaveStep_keep m leave value :
  m !! Email leave = Some value → Datetime leave ≤ sj_Time value →
  leaveStep m leave = m.
Proof.
  unfold leaveStep. intros -> Hle; simpl.
  destruct (Z.gtb_spec (Datetime leave) (sj_Time value)); [lia|done].
Qed.

Lemma leaveStep_absent m leave :
  m !! Email leave = None → leaveStep m leave = m.
Proof.
  unfold leaveStep. intros Hnone. rewrite Hnone; simpl.
  destruct (Datetime leave >? 0); [|done].
  by apply delete_id.
Qed.

Lemma leaveStep_lookup m leave e info :
  leaveStep m leave !! e = Some info ↔
  m !! e = Some info ∧ (Email leave = e → Datetime leave ≤ sj_Time info).
Proof.
  destruct (m !! Email leave) as [value|] eqn:Hm.
  - destruct (Z.lt_ge_cases (sj_Time value) (Datetime leave)) as [Hlt|Hge].
    + rewrite (leaveStep_remove _ _ _ Hm Hlt).
      destruct (decide (Email leave = e)) as [<-|Hne].
      * rewrite lookup_delete_eq, Hm. split; [done|].
        intros [[= <-] Hle]. specialize (Hle eq_refl). lia.
      * rewrite lookup_delete_ne by done.
        split; [intros ?; split; [done|by intros ?]|by intros [? _]].
    + rewrite (leaveStep_keep _ _ _ Hm Hge). split; [|by intros [? _]].
      intros He. split; [done|]. intros <-. rewrite Hm in He. by simplify_eq.
  - rewrite (leaveStep_absent _ _ Hm). split; [|by intros [? _]].
    intros He. split; [done|]. intros <-. congruence.
Qed.

Lemma leaves_fold_lookup leaves m e info :
  foldl leaveStep m leaves !! e = Some info ↔
  m !! e = Some info
  ∧ ∀ leave, leave ∈ leaves → Email leave = e →
      Datetime leave ≤ sj_Time info.
Proof.
  revert m. induction leaves as [|l leaves IH]; intros m; simpl.
  - split; [|by intros [? _]]. intros H; split; [done|].
    intros ? Hin. by apply elem_of_nil in Hin.
  - rewrite IH, leaveStep_lookup. split.
    + intros [[Hm Hl] Hrest]. split; [done|]. intros leave [->|Hin]%elem_of_cons; auto.
    + intros [Hm Hall]. repeat split; [done| |].
      * apply Hall. by left.
      * intros leave Hin. apply Hall. by right.
Qed.

(** After the joins: an entry is the first join of latest time. *)
Lemma joinStep_lookup m join e info :
  joinStep m join !! e = Some info →
  (m !! e = Some info ∧ (Email join = e → Datetime join ≤ sj_Time info))
  ∨ (Email join = e ∧ info = joinInfo join
     ∧ ∀ value, m !! e = Some value → sj_Time value < Datetime join).
Proof.
  destruct (m !! Email join) as [value|] eqn:Hm.
  - destruct (Z.lt_ge_cases (sj_Time value) (Datetime join)) as [Hlt|Hge].
    + rewrite joinStep_overwrite by eauto.
      destruct (decide (Email join = e)) as [<-|Hne].
      * rewrite lookup_insert_eq. intros [= <-]. right. repeat split.
        intros v. rewrite Hm. by intros [= <-].
      * rewrite lookup_insert_ne by done. intros He. left.
        split; [done|by intros ?].
    + rewrite (joinStep_keep _ _ _ Hm Hge). intros He. left. split; [done|].
      intros <-. rewrite Hm in He. by simplify_eq.
  - rewrite joinStep_overwrite by eauto.
    destruct (decide (Email join = e)) as [<-|Hne].
    + rewrite lookup_insert_eq. intros [= <-]. right. repeat split.
      intros v. by rewrite Hm.
    + rewrite lookup_insert_ne by done. intros He. left.
      split; [done|by intros ?].
Qed.

Lemma joinStep_is_Some m join : is_Some (joinStep m join !! Email join).
Proof.
  unfold joinStep. destruct (m !! Email join) as [value|] eqn:Hm.
  - destruct (_ >? _); [rewrite lookup_insert_eq|rewrite Hm]; eauto.
  - rewrite lookup_insert_eq; eauto.
Qed.

Lemma joinStep_mono m join e : is_Some (m !! e) → is_Some (joinStep m join !! e).
Proof.
  intros Hs. unfold joinStep. destruct (m !! Email join) as [value|] eqn:Hm.
  - destruct (_ >? _); [|done]. rewrite lookup_insert. case_decide; eauto.
  - rewrite lookup_insert. case_decide; eauto.
Qed.

Lemma joins_fold_lookup joins m e info :
  foldl joinStep m joins !! e = Some info →
  (m !! e = Some info
   ∨ ∃ join, join ∈ joins ∧ Email join = e ∧ info = joinInfo join)
  ∧ (∀ join, join ∈ joins → Email join = e → Datetime join ≤ sj_Time info)
  ∧ (∀ value, m !! e = Some value → sj_Time value ≤ sj_Time info).
Proof.
  revert m. induction joins as [|j joins IH]; intros m; simpl.
  - intros H. split; [by left|]. split.
    + intros ? Hin. by apply elem_of_nil in Hin.
    + intros v. rewrite H. intros [= <-]. lia.
  - intros H. destruct (IH _ H) as (Hsrc & Hmax & Hge).
    assert (∀ value, m !! e = Some value → sj_Time value ≤ sj_Time info) as Hm.
    { intros value Hv.
      destruct (joinStep_mono m j e) as [v' Hv']; [eauto|].
      specialize (Hge _ Hv').
      apply joinStep_lookup in Hv' as [[Hv' _]|(_ & -> & Hlt)].
      - rewrite Hv in Hv'. simplify_eq. done.
      - specialize (Hlt _ Hv). simpl in Hge. lia. }
    assert (Email j = e → Datetime j ≤ sj_Time info) as Hj.
    { intros <-. destruct (joinStep_is_Some m j) as [v' Hv'].
      specialize (Hge _ Hv').
      apply joinStep_lookup in Hv' as [[Hv' Hle]|(_ & -> & Hlt)].
      - specialize (Hle eq_refl). lia.
      - done. }
    split; [|split; [|done]].
    + destruct Hsrc as [Hsrc|(join & Hin & He & Hinfo)].
      * apply joinStep_lookup in Hsrc as [[Hsrc _]|(He & Hinfo & _)]; [by left|].
        right. exists j. split; [by left|done].
      * right. exists join. split; [by right|done].
    + intros join [->|Hin]%elem_of_cons; auto.
Qed.

Lemma joins_fold_is_Some_mono joins m e :
  is_Some (m !! e) → is_Some (foldl joinStep m joins !! e).
Proof.
  revert m. induction joins as [|j joins IH]; intros m Hs; simpl; [done|].
  by apply IH, joinStep_mono.
Qed.

Lemma joins_fold_is_Some joins m join :
  join ∈ joins → is_Some (foldl joinStep m joins !! Email join).
Proof.
  revert m. induction joins as [|j joins IH]; intros m Hin; simpl.
  - by apply elem_of_nil in Hin.
  - apply elem_of_cons in Hin as [->|Hin]; [|by apply IH].
    apply joins_fold_is_Some_mono, joinStep_is_Some.
Qed.

(** Who is still joined after both loops, and with what entry. *)
Lemma stillJoinedAfter_lookup joins leaves email info :
  stillJoinedAfter joins leaves !! email = Some info →
  ∃ join, join ∈ joins ∧ Email join = email ∧ info = joinInfo join
    ∧ (∀ join', join' ∈ joins → Email join' = email →
         Datetime join' ≤ Datetime join)
    ∧ (∀ leave, leave ∈ leaves → Email leave = email →
         Datetime leave ≤ Datetime join).
Proof.
  rewrite stillJoinedAfter_eq, leaves_fold_lookup. intros [Hj Hl].
  apply joins_fold_lookup in Hj as ([Hj|(join & Hin & He & ->)] & Hmax & _).
  - by rewrite lookup_empty in Hj.
  - exists join. by repeat split.
Qed.

Lemma stillJoinedAfter_is_Some joins leaves join :
  join ∈ joins →
  (∀ join', join' ∈ joins → Email join' = Email join →
     Datetime join' ≤ Datetime join) →
  (∀ leave, leave ∈ leaves → Email leave = Email join →
     Datetime leave ≤ Datetime join) →
  is_Some (stillJoinedAfter joins leaves !! Email join).
Proof.
  intros Hin Hmax Hleaves.
  destruct (joins_fold_is_Some joins ∅ join Hin) as [info Hinfo].
  exists info. rewrite stillJoinedAfter_eq, leaves_fold_lookup. split; [done|].
  intros leave Hl He.
  apply joins_fold_lookup in Hinfo as (_ & Hge & _).
  specialize (Hge join Hin eq_refl). specialize (Hleaves leave Hl He). lia.
Qed.




Lemma rangeOrder_elem_of {V} (m : gmap string V) order k v :
  rangeOrder m order → (k, v) ∈ order ↔ m !! k = Some v.
Proof. intros ->. apply elem_of_map_to_list. Qed.



(** ** The order of the leave events *)

Lemma string_compare_refl a : String.compare a a = Eq.
Proof.
  pose proof (String.compare_antisym a a) as H.
  destruct (String.compare a a); simpl in H; congruence.
Qed.

Lemma string_ltb_leb a b : String.ltb b a = false ↔ String.leb a b = true.
Proof.
  unfold String.ltb, String.leb. rewrite (String.compare_antisym a b).
  destruct (String.compare b a); simpl; split; congruence.
Qed.

Lemma string_leb_cases a b :
  String.leb a b = true ↔ a = b ∨ String.ltb a b = true.
Proof.
  unfold String.ltb, String.leb.
  destruct (String.compare a b) eqn:Hc; split; try tauto; try congruence.
  - intros _. left. by apply String.compare_eq_iff.
  - intros [->|]; [|done]. by rewrite string_compare_refl in Hc.
Qed.

Lemma string_ltb_trans a b c :
  String.ltb a b = true → String.ltb b c = true → String.ltb a c = true.
Proof.
  unfold String.ltb.
  destruct (String.compare a b) eqn:Hab; try done.
  destruct (String.compare b c) eqn:Hbc; try done.
  intros _ _.
  apply OrderedTypeEx.String_as_OT.cmp_lt in Hab, Hbc.
  pose proof (OrderedTypeEx.String_as_OT.lt_trans _ _ _ Hab Hbc) as Hac.
  apply OrderedTypeEx.String_as_OT.cmp_lt in Hac.
  unfold OrderedTypeEx.String_as_OT.cmp in Hac. by rewrite Hac.
Qed.

Lemma string_leb_trans a b c :
  String.leb a b = true → String.leb b c = true → String.leb a c = true.
Proof.
  rewrite !string_leb_cases.
  intros [->|Hab] [->|Hbc]; eauto using string_ltb_trans.
Qed.

#[global] Instance keyLe_trans : Transitive keyLe.
Proof.
  intros [t1 e1] [t2 e2] [t3 e3]; unfold keyLe; simpl.
  intros [?|[-> H12]] [?|[-> H23]]; try (left; lia).
  right. eauto using string_leb_trans.
Qed.

#[global] Instance keyLe_antisym : AntiSymm (=) keyLe.
Proof.
  intros [t1 e1] [t2 e2]; unfold keyLe; simpl.
  intros [?|[Heq H12]] [?|[Heq' H21]]; try lia.
  subst. f_equal. by apply String.leb_antisym.
Qed.

#[global] Instance keyLe_total : Total keyLe.
Proof.
  intros [t1 e1] [t2 e2]; unfold keyLe; simpl.
  destruct (Z.lt_trichotomy t1 t2) as [?|[->|?]].
  - left. by left.
  - destruct (String.leb_total e1 e2).
    + left. right. done.
    + right. right. done.
  - right. by left.
Qed.

(** The comparison of the source orders by the key. *)
Lemma notLess_leaveLess a b :
  notLess leaveLess a b ↔ keyLe (leaveKey a) (leaveKey b).
Proof.
  unfold notLess, leaveLess, keyLe, leaveKey; simpl.
  destruct (Z.eqb_spec (LeaveTime b) (LeaveTime a)) as [Heq|Hne].
  - rewrite string_ltb_leb. split; [intros; right; done|].
    intros [?|[_ ?]]; [lia|done].
  - rewrite Z.ltb_ge. split; [intros; left; lia|].
    intros [?|[? _]]; lia.
Qed.

#[global] Instance notLess_leaveLess_trans : Transitive (notLess leaveLess).
Proof.
  intros a b c. rewrite !notLess_leaveLess. apply keyLe_trans.
Qed.

#[global] Instance notLess_leaveLess_total : Total (notLess leaveLess).
Proof.
  intros a b. rewrite !notLess_leaveLess. apply keyLe_total.
Qed.

(** [less] is a strict weak order, as [sort.Slice] asks. *)
Lemma leaveLess_irrefl a : leaveLess a a = false.
Proof.
  apply notLess_leaveLess. right. split; [done|].
  apply string_leb_cases. by left.
Qed.

Lemma leaveLess_iff a b :
  leaveLess a b = true ↔ ¬ keyLe (leaveKey b) (leaveKey a).
Proof.
  rewrite <-notLess_leaveLess. unfold notLess.
  destruct (leaveLess a b); split; congruence.
Qed.

Lemma leaveLess_trans a b c :
  leaveLess a b = true → leaveLess b c = true → leaveLess a c = true.
Proof.
  rewrite !leaveLess_iff. intros Hab Hbc Hca.
  destruct (keyLe_total (leaveKey b) (leaveKey c)) as [H|H]; [|done].
  destruct (keyLe_total (leaveKey a) (leaveKey b)) as [H'|H']; [|done].
  apply Hab. by transitivity (leaveKey c).
Qed.

(** The stable sort meets the guarantee of [sort.Slice]. *)
Lemma sortSliceStable_sortSlice (input : list LeaveExport) :
  sortSlice leaveLess input (sortSliceStable leaveLess input).
Proof.
  split.
  - apply merge_sort_Permutation.
  - apply Sorted_StronglySorted; [apply _|]. apply Sorted_merge_sort. apply _.
Qed.


(** ** More on the still-joined map *)

(** Who is still joined, in terms of the two input lists: the users with
    a join none of whose leaves is strictly later than all their joins. A
    leave of a user without a join reads the zero value and deletes
    nothing. *)
Theorem still_joined_iff (joins leaves : list MemberEvent) (email : string) :
  is_Some (stillJoinedAfter joins leaves !! email) ↔
  (∃ join, join ∈ joins ∧ Email join = email)
  ∧ ∀ leave, leave ∈ leaves → Email leave = email →
      ∃ join, join ∈ joins ∧ Email join = email
              ∧ Datetime leave ≤ Datetime join.
Proof.
  split.
  - intros [info Hinfo].
    apply stillJoinedAfter_lookup in Hinfo
      as (join & Hin & He & _ & _ & Hleaves).
    split; [by exists join|].
    intros leave Hl Hle. exists join. repeat split; [done|done|].
    by apply Hleaves.
  - intros [(join & Hin & He) Hleaves]. subst email.
    destruct (joins_fold_is_Some joins ∅ join Hin) as [info Hinfo].
    exists info. rewrite stillJoinedAfter_eq, leaves_fold_lookup.
    split; [done|]. intros leave Hl Hle.
    destruct (Hleaves leave Hl Hle) as (join' & Hin' & He' & Hle').
    apply joins_fold_lookup in Hinfo as (_ & Hmax & _).
    specialize (Hmax join' Hin' He'). lia.
Qed.

(** The entry the joins loop leaves for a user, located in the list. *)
Lemma joins_fold_first_latest joins m e info :
  foldl joinStep m joins !! e = Some info →
  (m !! e = Some info
   ∧ ∀ join, join ∈ joins → Email join = e → Datetime join ≤ sj_Time info)
  ∨ ∃ before join after,
      joins = before ++ join :: after
      ∧ Email join = e ∧ info = joinInfo join
      ∧ (∀ value, m !! e = Some value → sj_Time value < Datetime join)
      ∧ (∀ j, j ∈ before → Email j = e → Datetime j < Datetime join)
      ∧ (∀ j, j ∈ after → Email j = e → Datetime j ≤ Datetime join).
Proof.
  revert m. induction joins as [|j0 joins IH]; intros m; simpl.
  - intros Hm. left. split; [done|]. intros ? Hin. by apply elem_of_nil in Hin.
  - intros Hfold.
    destruct (IH _ Hfold)
      as [[Hstep Hrest]
         |(before & join & after & -> & He & Hinfo & Hnew & Hbefore & Hafter)].
    + apply joinStep_lookup in Hstep as [[Hm Hj0]|(He & Hinfo & Hlt)].
      * left. split; [done|].
        intros join [->|Hin]%elem_of_cons; [done|by apply Hrest].
      * right. exists [], j0, joins. repeat split; try done.
        -- intros j Hin. by apply elem_of_nil in Hin.
        -- intros j Hin Hj. subst info. by apply Hrest.
    + right. exists (j0 :: before), join, after.
      split; [done|]. split; [done|]. split; [done|].
      split; [|split; [|done]].
      * intros value Hv.
        destruct (joinStep_mono m j0 e) as [v' Hv']; [by eexists|].
        specialize (Hnew _ Hv').
        apply joinStep_lookup in Hv' as [[Hv' _]|(_ & -> & Hlt)].
        -- rewrite Hv in Hv'. by simplify_eq.
        -- specialize (Hlt _ Hv). simpl in Hnew. lia.
      * intros j [->|Hin]%elem_of_cons Hj; [|by apply Hbefore].
        rewrite <-Hj in Hnew.
        destruct (joinStep_is_Some m j0) as [v' Hv'].
        specialize (Hnew _ Hv').
        apply joinStep_lookup in Hv' as [[_ Hle]|(_ & -> & _)].
        -- specialize (Hle eq_refl). lia.
        -- done.
Qed.

(** The entry kept for a user still joined is that of the first of the
    user's joins of latest time: an earlier join of the user is strictly
    earlier in time, a later one is not later in time. In particular, of
    two joins of the same time with different bot flags, the first gives
    the type of the synthesized leave. *)
Theorem still_joined_entry_is_first_latest_join
    (joins leaves : list MemberEvent) (email : string) (info : StillJoinedInfo) :
  stillJoinedAfter joins leaves !! email = Some info →
  ∃ before join after,
    joins = before ++ join :: after
    ∧ Email join = email
    ∧ info = joinInfo join
    ∧ (∀ j, j ∈ before → Email j = email → Datetime j < Datetime join)
    ∧ (∀ j, j ∈ after → Email j = email → Datetime j ≤ Datetime join).
Proof.
  rewrite stillJoinedAfter_eq, leaves_fold_lookup. intros [Hjoins _].
  apply joins_fold_first_latest in Hjoins
    as [[Hempty _]|(before & join & after & ? & ? & ? & _ & ? & ?)].
  - by rewrite lookup_empty in Hempty.
  - by exists before, join, after.
Qed.

(** A user whom the leaves loop removed has a leave strictly later than
    the stored join. *)
Lemma leaves_fold_removed leaves m e info :
  m !! e = Some info →
  foldl leaveStep m leaves !! e = None →
  ∃ leave, leave ∈ leaves ∧ Email leave = e ∧ sj_Time info < Datetime leave.
Proof.
  revert m. induction leaves as [|l leaves IH]; intros m Hm; simpl.
  - congruence.
  - intros Hnone.
    destruct (decide (Email l = e ∧ sj_Time info < Datetime l)) as [[? ?]|Hno].
    + exists l. split; [by left|done].
    + destruct (IH (leaveStep m l)) as (leave & Hin & ? & ?); [|done|].
      * apply leaveStep_lookup. split; [done|]. intros He.
        destruct (Z.le_gt_cases (Datetime l) (sj_Time info)); [done|].
        destruct Hno. split; [done|lia].
      * exists leave. split; [by right|done].
Qed.

Section Properties.

Context {env : Collaborators}.

Set Default Proof Using "Type".

(** ** The transcript of a channel *)

(** A successful run of [buildChannelExport], taken apart. *)
Lemma buildChannelExport_inv channel members elements channelExport :
  buildChannelExport channel members elements (inr channelExport) →
  ∃ channelMembersHistory joins leaves order sorted,
    GetUsersInChannelDuring (StartTime channel) (EndTime channel)
      (ChannelId channel) = inr channelMembersHistory
    ∧ GetJoinsAndLeavesForChannel (StartTime channel) (EndTime channel)
        channelMembersHistory members = (joins, leaves)
    ∧ rangeOrder (stillJoinedAfter joins leaves) order
    ∧ sortSlice leaveLess
        (leaveEventsUnsorted (EndTime channel) joins leaves order) sorted
    ∧ channelExport = channelExportOf channel elements joins sorted.
Proof. inversion 1; subst. eauto 10. Qed.

(** [buildChannelExport] always returns. *)
Lemma buildChannelExport_total channel members elements :
  ∃ result, buildChannelExport channel members elements result.
Proof.
  destruct (GetUsersInChannelDuring (StartTime channel) (EndTime channel)
              (ChannelId channel)) as [err|history] eqn:Hhistory.
  - eexists. by apply buildChannelExport_history_error.
  - destruct (GetJoinsAndLeavesForChannel (StartTime channel) (EndTime channel)
                history members) as [joins leaves] eqn:Hjl.
    eexists. eapply buildChannelExport_ok; [done|done|unfold rangeOrder; reflexivity|].
    apply sortSliceStable_sortSlice.
Qed.

Lemma StronglySorted_weaken {A} (R1 R2 : relation A) (l : list A) :
  (∀ x y, R1 x y → R2 x y) → StronglySorted R1 l → StronglySorted R2 l.
Proof.
  intros Himpl. induction 1 as [|x l Hs IH Hall]; constructor; [done|].
  eapply Forall_impl; eauto.
Qed.

(** Positions in a list sorted by the source's comparison. *)
Lemma sorted_positions (sorted : list LeaveExport) (i j : nat) a b :
  StronglySorted (notLess leaveLess) sorted →
  sorted !! i = Some a → sorted !! j = Some b → (i < j)%nat →
  keyLe (leaveKey a) (leaveKey b).
Proof.
  intros Hs. revert i j. induction Hs as [|x l Hs IH Hall]; intros i j Hi Hj Hij.
  - by rewrite lookup_nil in Hi.
  - destruct j as [|j]; [lia|]. simpl in Hj.
    destruct i as [|i]; simpl in Hi.
    + simplify_eq. apply notLess_leaveLess.
      rewrite Forall_forall in Hall. apply Hall.
      by eapply list_elem_of_lookup_2.
    + apply (IH i j); [done|done|lia].
Qed.

(** C2. The leave events of every channel transcript are sorted ascending
    by (leave timestamp, user email): of two leave events, the one with
    the earlier timestamp comes first, and with equal timestamps the one
    with the lexically smaller email comes first. *)
Theorem leave_events_sorted channel members elements channelExport :
  buildChannelExport channel members elements (inr channelExport) →
  StronglySorted (λ a b, keyLe (leaveKey a) (leaveKey b))
    (LeaveEvents channelExport)
  ∧ ∀ (i j : nat) a b,
      LeaveEvents channelExport !! i = Some a →
      LeaveEvents channelExport !! j = Some b →
      (LeaveTime a < LeaveTime b → (i < j)%nat)
      ∧ (LeaveTime a = LeaveTime b →
         String.ltb (le_UserEmail a) (le_UserEmail b) = true → (i < j)%nat).
Proof.
  intros (history & joins & leaves & order & sorted & _ & _ & _ & [_ Hs] & ->)
    %buildChannelExport_inv; simpl.
  split.
  - eapply StronglySorted_weaken; [|exact Hs].
    intros a b. apply notLess_leaveLess.
  - intros i j a b Hi Hj.
    assert (¬ keyLe (leaveKey b) (leaveKey a) → (i < j)%nat) as Hfirst.
    { intros Hnot. destruct (decide (i < j)%nat) as [|Hge]; [done|].
      exfalso. apply Hnot.
      destruct (decide (i = j)) as [->|Hne].
      - rewrite Hi in Hj. simplify_eq. apply notLess_leaveLess, leaveLess_irrefl.
      - apply (sorted_positions sorted j i); [done|done|done|lia]. }
    split.
    + intros Hlt. apply Hfirst. unfold keyLe, leaveKey; simpl. lia.
    + intros Heq Hltb. apply Hfirst. unfold keyLe, leaveKey; simpl.
      intros [?|[_ Hle]]; [lia|].
      apply string_ltb_leb in Hle. congruence.
Qed.

(** ** Two runs on the same input *)






(** ** Record classification *)

Lemma fileInfos_fold post fileInfos acc :
  foldl (fileInfoStep post) acc fileInfos
  = {| startUploads :=
         startUploads acc
         ++ (UploadStartElement ∘ uploadStart post <$> fileInfos);
       stopUploads :=
         stopUploads acc
         ++ (UploadStopElement ∘ uploadStop post <$> fileInfos);
       uploadedFiles := uploadedFiles acc ++ fileInfos;
       deleteFileMessages :=
         deleteFileMessages acc ++ (fileInfos ≫= deleteFileMessage post) |}.
Proof.
  revert acc. induction fileInfos as [|f fileInfos IH]; intros acc; simpl.
  - rewrite !app_nil_r. by destruct acc.
  - rewrite IH. unfold fileInfoStep; simpl. by rewrite <-!app_assoc.
Qed.

Lemma postToAttachmentsEntries_none post :
  length (model.PostFileIds post) = 0%nat →
  postToAttachmentsEntries post = inr noAttachments.
Proof.
  intros Hz. unfold postToAttachmentsEntries. by rewrite bool_decide_eq_true_2.
Qed.

Lemma postToAttachmentsEntries_resolved post fileInfos :
  length (model.PostFileIds post) ≠ 0%nat →
  GetForPost (model.PostId post) = inr fileInfos →
  postToAttachmentsEntries post
  = inr {| startUploads := UploadStartElement ∘ uploadStart post <$> fileInfos;
           stopUploads := UploadStopElement ∘ uploadStop post <$> fileInfos;
           uploadedFiles := fileInfos;
           deleteFileMessages := fileInfos ≫= deleteFileMessage post |}.
Proof.
  intros Hnz Hget. unfold postToAttachmentsEntries.
  rewrite bool_decide_eq_false_2 by done. rewrite Hget.
  by rewrite fileInfos_fold.
Qed.

Lemma postToAttachmentsEntries_failed post cause :
  length (model.PostFileIds post) ≠ 0%nat →
  GetForPost (model.PostId post) = inl cause →
  postToAttachmentsEntries post
  = inl (Wrap (NewAppError "postToAttachmentsEntries"
                 "ent.message_export.actiance_export.get_attachment_error"
                 StatusInternalServerError None) cause).
Proof.
  intros Hnz Hget. unfold postToAttachmentsEntries.
  rewrite bool_decide_eq_false_2 by done. by rewrite Hget.
Qed.

(** The message entries of a post whose deletion is marked. *)
Lemma deleteEntries_marked post postDeleteAt postProps props value :
  model.PostDeleteAt post = Some postDeleteAt → 0 < postDeleteAt →
  model.PostProps post = Some postProps →
  json_Unmarshal postProps = Some props →
  props !! PostPropsDeleteBy = Some value →
  deleteEntries post
  = [PostElement
       {| pe_UserEmail := model.UserEmail post;
          pe_UserType := userTypeOf (model.IsBot post);
          PostTime := postDeleteAt;
          Message := "delete " +:+ model.PostMessage post;
          PreviewsPost := PreviewID post |}].
Proof.
  intros Hd Hpos Hp Hj Hk. unfold deleteEntries.
  rewrite Hd, Hp, Hj, Hk. by rewrite (proj2 (Z.gtb_lt _ _)) by lia.
Qed.

Lemma deleteEntries_unmarked post :
  (model.PostDeleteAt post = None
   ∨ (∃ postDeleteAt, model.PostDeleteAt post = Some postDeleteAt
                      ∧ postDeleteAt ≤ 0)
   ∨ model.PostProps post = None
   ∨ (∃ postProps, model.PostProps post = Some postProps
                   ∧ json_Unmarshal postProps = None)
   ∨ (∃ postProps props, model.PostProps post = Some postProps
                         ∧ json_Unmarshal postProps = Some props
                         ∧ props !! PostPropsDeleteBy = None)) →
  deleteEntries post = [].
Proof.
  unfold deleteEntries.
  intros [->|[(t & -> & Ht)|[->|[(p & -> & Hj)|(p & props & -> & Hj & Hk)]]]].
  - done.
  - destruct (model.PostProps post); [|done].
    by destruct (Z.gtb_spec t 0); [lia|].
  - by destruct (model.PostDeleteAt post).
  - destruct (model.PostDeleteAt post) as [t|]; [|done].
    rewrite Hj. by destruct (t >? 0).
  - destruct (model.PostDeleteAt post) as [t|]; [|done].
    rewrite Hj, Hk. by destruct (t >? 0).
Qed.

(** C4, as the code has it. A record whose deletion timestamp is present
    and strictly positive, and whose properties blob parses as a mapping
    holding the deleted-by key, yields two message entries: the body at
    the creation time, then the body prefixed with the word delete and a
    space, at the deletion timestamp. A record whose deletion timestamp is
    absent or not positive, whose blob is absent or does not parse, or
    whose parsed blob lacks the key, yields the body entry alone; no case
    is an error, and a record without file ids adds nothing else. *)
Theorem message_entries_of_record (post : model.MessageExport) :
  (∀ postDeleteAt postProps props value,
     model.PostDeleteAt post = Some postDeleteAt → 0 < postDeleteAt →
     model.PostProps post = Some postProps →
     json_Unmarshal postProps = Some props →
     props !! PostPropsDeleteBy = Some value →
     messageEntry post :: deleteEntries post
     = [PostElement
          {| pe_UserEmail := model.UserEmail post;
             pe_UserType := userTypeOf (model.IsBot post);
             PostTime := model.PostCreateAt post;
             Message := model.PostMessage post;
             PreviewsPost := PreviewID post |};
        PostElement
          {| pe_UserEmail := model.UserEmail post;
             pe_UserType := userTypeOf (model.IsBot post);
             PostTime := postDeleteAt;
             Message := "delete " +:+ model.PostMessage post;
             PreviewsPost := PreviewID post |}])
  ∧ ((model.PostDeleteAt post = None
      ∨ (∃ postDeleteAt, model.PostDeleteAt post = Some postDeleteAt
                         ∧ postDeleteAt ≤ 0)
      ∨ model.PostProps post = None
      ∨ (∃ postProps, model.PostProps post = Some postProps
                      ∧ json_Unmarshal postProps = None)
      ∨ (∃ postProps props, model.PostProps post = Some postProps
                            ∧ json_Unmarshal postProps = Some props
                            ∧ props !! PostPropsDeleteBy = None)) →
     messageEntry post :: deleteEntries post
     = [PostElement
          {| pe_UserEmail := model.UserEmail post;
             pe_UserType := userTypeOf (model.IsBot post);
             PostTime := model.PostCreateAt post;
             Message := model.PostMessage post;
             PreviewsPost := PreviewID post |}])
  ∧ (length (model.PostFileIds post) = 0%nat →
     postElements post = messageEntry post :: deleteEntries post
     ∧ ∀ st, ∃ st', postStep st post = inr st').
Proof.
  split; [|split].
  - intros t p props value Hd Hpos Hp Hj Hk.
    by rewrite (deleteEntries_marked _ _ _ _ _ Hd Hpos Hp Hj Hk).
  - intros Hcases. by rewrite deleteEntries_unmarked.
  - intros Hz. unfold postElements, postStep.
    rewrite (postToAttachmentsEntries_none _ Hz); simpl.
    split; [by rewrite app_nil_r|]. intros st. eauto.
Qed.

(** C5. For a record without attached file ids the attachment entries are
    four empty lists and no error. For a record with file ids whose
    lookup resolves to [fileInfos], the start and the stop entries are one
    per resolved file, in order, both at the creation time of the message,
    and every stop entry has status Completed, never Failed. *)
Theorem attachment_entries (post : model.MessageExport) :
  (length (model.PostFileIds post) = 0%nat →
   postToAttachmentsEntries post
   = inr {| startUploads := []; stopUploads := []; uploadedFiles := [];
            deleteFileMessages := [] |})
  ∧ (∀ fileInfos,
       length (model.PostFileIds post) ≠ 0%nat →
       GetForPost (model.PostId post) = inr fileInfos →
       ∃ entries,
         postToAttachmentsEntries post = inr entries
         ∧ startUploads entries
           = (λ fileInfo,
                UploadStartElement
                  {| fs_UserEmail := model.UserEmail post;
                     UploadStartTime := model.PostCreateAt post;
                     fs_Filename := model.Name fileInfo;
                     fs_FilePath := model.Path fileInfo |}) <$> fileInfos
         ∧ stopUploads entries
           = (λ fileInfo,
                UploadStopElement
                  {| ft_UserEmail := model.UserEmail post;
                     UploadStopTime := model.PostCreateAt post;
                     ft_Filename := model.Name fileInfo;
                     ft_FilePath := model.Path fileInfo;
                     Status := "Completed" |}) <$> fileInfos
         ∧ uploadedFiles entries = fileInfos
         ∧ length (startUploads entries) = length fileInfos
         ∧ length (stopUploads entries) = length fileInfos
         ∧ ∀ stop, UploadStopElement stop ∈ stopUploads entries →
             Status stop = "Completed" ∧ Status stop ≠ "Failed"
             ∧ UploadStopTime stop = model.PostCreateAt post).
Proof.
  split; [apply postToAttachmentsEntries_none|].
  intros fileInfos Hnz Hget. eexists.
  split; [by apply postToAttachmentsEntries_resolved|]. simpl.
  split; [done|]. split; [done|]. split; [done|].
  split; [by rewrite length_fmap|]. split; [by rewrite length_fmap|].
  intros stop Hstop.
  apply list_elem_of_fmap in Hstop as (f & [= ->] & _). done.
Qed.

(** The delete notice of one resolved file. *)
Lemma deleteFileMessage_cases post fileInfo :
  (∀ postDeleteAt,
     0 < model.DeleteAt fileInfo → model.PostDeleteAt post = Some postDeleteAt →
     deleteFileMessage post fileInfo
     = [PostElement
          {| pe_UserEmail := model.UserEmail post;
             pe_UserType := userTypeOf (model.IsBot post);
             PostTime := postDeleteAt;
             Message := "delete " +:+ model.Path fileInfo;
             PreviewsPost := PreviewID post |}])
  ∧ (model.DeleteAt fileInfo ≤ 0 ∨ model.PostDeleteAt post = None →
     deleteFileMessage post fileInfo = []).
Proof.
  unfold deleteFileMessage. split.
  - intros t Hpos ->. by rewrite (proj2 (Z.gtb_lt _ _)) by lia.
  - intros [Hle| ->]; [|done].
    destruct (model.PostDeleteAt post); [|done].
    by destruct (Z.gtb_spec (model.DeleteAt fileInfo) 0); [lia|].
Qed.

(** C6. For the resolved attachments of a record, the delete notices are
    those of the attachments in order, and an attachment has its notice,
    a message entry at the deletion timestamp of the owning message with
    the text delete, a space and the file path, if and only if its own
    deletion time is set (positive) and the owning message has a deletion
    timestamp (the pointer is not nil; line 229 does not test its value);
    otherwise it has none. *)
Theorem attachment_delete_notices (post : model.MessageExport)
    (fileInfos : list model.FileInfo) :
  length (model.PostFileIds post) ≠ 0%nat →
  GetForPost (model.PostId post) = inr fileInfos →
  ∃ entries,
    postToAttachmentsEntries post = inr entries
    ∧ deleteFileMessages entries = fileInfos ≫= deleteFileMessage post
    ∧ ∀ fileInfo,
        ((0 < model.DeleteAt fileInfo ∧ is_Some (model.PostDeleteAt post))
         ↔ ∃ postDeleteAt,
             model.PostDeleteAt post = Some postDeleteAt
             ∧ deleteFileMessage post fileInfo
               = [PostElement
                    {| pe_UserEmail := model.UserEmail post;
                       pe_UserType := userTypeOf (model.IsBot post);
                       PostTime := postDeleteAt;
                       Message := "delete " +:+ model.Path fileInfo;
                       PreviewsPost := PreviewID post |}])
        ∧ (¬ (0 < model.DeleteAt fileInfo ∧ is_Some (model.PostDeleteAt post))
           ↔ deleteFileMessage post fileInfo = []).
Proof.
  intros Hnz Hget. eexists.
  split; [by apply postToAttachmentsEntries_resolved|]. simpl.
  split; [done|]. intros fileInfo.
  destruct (deleteFileMessage_cases post fileInfo) as [Hyes Hno].
  destruct (decide (0 < model.DeleteAt fileInfo)) as [Hpos|Hnpos];
    destruct (model.PostDeleteAt post) as [t|] eqn:Hd.
  - rewrite (Hyes t Hpos eq_refl). split.
    + split; [intros _; by exists t|intros _; split; [done|by eexists]].
    + split; [intros Hn; exfalso; apply Hn; split; [done|by eexists]|done].
  - rewrite Hno by (by right). split.
    + split; [by intros [_ [? ?]]|by intros (? & ? & _)].
    + split; [done|by intros _ [_ [? ?]]].
  - rewrite Hno by (left; lia). split.
    + split; [by intros [? _]|by intros (? & _ & ?)].
    + split; [done|by intros _ [? _]].
  - rewrite Hno by (left; lia). split.
    + split; [by intros [? _]|by intros (? & ? & _)].
    + split; [done|by intros _ [? _]].
Qed.

(** ** The loops of [ActianceExport] *)

Lemma appendElements_lookup (m : gmap string (list Element)) c new c' :
  default [] (appendElements m c new !! c')
  = default [] (m !! c') ++ (if decide (c = c') then new else []).
Proof.
  unfold appendElements. rewrite lookup_insert.
  destruct (decide (c = c')) as [->|Hne]; simpl; [done|].
  by rewrite app_nil_r.
Qed.

Lemma postStep_elements st post st' c :
  postStep st post = inr st' →
  default [] (elementsByChannel st' !! c)
  = default [] (elementsByChannel st !! c)
    ++ (if decide (model.ChannelId post = c) then postElements post else []).
Proof.
  unfold postStep, postElements.
  destruct (postToAttachmentsEntries post) as [err|entries]; [done|].
  intros [= <-]; simpl. rewrite !appendElements_lookup.
  destruct (decide (model.ChannelId post = c)); simpl.
  - by rewrite <-!app_assoc.
  - by rewrite !app_nil_r.
Qed.

Lemma postStep_uploaded st post st' :
  postStep st post = inr st' →
  ∃ entries, postToAttachmentsEntries post = inr entries
    ∧ allUploadedFiles st' = allUploadedFiles st ++ uploadedFiles entries.
Proof.
  unfold postStep.
  destruct (postToAttachmentsEntries post) as [err|entries]; [done|].
  intros [= <-]; simpl. eauto.
Qed.

(** The bucket of a channel holds the elements of its posts, post after
    post in input order. *)
Lemma postsLoop_elements posts st st' c :
  postsLoop st posts = inr st' →
  default [] (elementsByChannel st' !! c)
  = default [] (elementsByChannel st !! c)
    ++ (filter (λ post, model.ChannelId post = c) (acceptedPosts posts)
          ≫= postElements).
Proof.
  revert st. induction posts as [|[post|] posts IH]; intros st; simpl.
  - intros [= <-]. by rewrite app_nil_r.
  - destruct (postStep st post) as [err|st1] eqn:Hstep; [done|].
    intros Hloop. rewrite (IH _ Hloop), (postStep_elements _ _ _ c Hstep).
    unfold acceptedPosts; simpl. rewrite <-app_assoc. f_equal.
    rewrite filter_cons. destruct (decide (model.ChannelId post = c)); done.
  - apply IH.
Qed.

Lemma postStep_failed st post err :
  postStep st post = inl err →
  ∃ cause, lookupFails post cause
    ∧ err = Wrap (NewAppError "postToAttachmentsEntries"
                    "ent.message_export.actiance_export.get_attachment_error"
                    StatusInternalServerError None) cause.
Proof.
  unfold postStep, postToAttachmentsEntries, lookupFails.
  case_bool_decide as Hlen; [done|].
  destruct (GetForPost (model.PostId post)) as [cause|infos]; [|done].
  intros [= <-]. eauto.
Qed.

Lemma postStep_lookup_failure st post cause :
  lookupFails post cause →
  postStep st post
  = inl (Wrap (NewAppError "postToAttachmentsEntries"
                 "ent.message_export.actiance_export.get_attachment_error"
                 StatusInternalServerError None) cause).
Proof.
  intros [Hnz Hget]. unfold postStep.
  by rewrite (postToAttachmentsEntries_failed _ _ Hnz Hget).
Qed.

Lemma postStep_ok st post :
  (∀ cause, ¬ lookupFails post cause) → ∃ st', postStep st post = inr st'.
Proof.
  intros Hok. destruct (postStep st post) as [err|st'] eqn:Hstep; [|eauto].
  apply postStep_failed in Hstep as (cause & Hfail & _). by destruct (Hok cause).
Qed.

(** The first loop stops at the first post whose lookup fails. *)
Lemma postsLoop_first_failure st before post after cause :
  (∀ post' cause', Some post' ∈ before → ¬ lookupFails post' cause') →
  lookupFails post cause →
  postsLoop st (before ++ Some post :: after)
  = inl (Wrap (NewAppError "postToAttachmentsEntries"
                 "ent.message_export.actiance_export.get_attachment_error"
                 StatusInternalServerError None) cause).
Proof.
  revert st. induction before as [|[post'|] before IH]; intros st Hbefore Hfail;
    simpl.
  - by rewrite (postStep_lookup_failure _ _ _ Hfail).
  - destruct (postStep_ok st post') as [st' ->].
    { intros cause'. apply Hbefore. by left. }
    apply IH; [|done]. intros p c Hin. apply Hbefore. by right.
  - apply IH; [|done]. intros p c Hin. apply Hbefore. by right.
Qed.

Lemma posts_first_failure (posts : list (option model.MessageExport)) :
  (∃ post cause, Some post ∈ posts ∧ lookupFails post cause) →
  ∃ before post after cause,
    posts = before ++ Some post :: after
    ∧ (∀ post' cause', Some post' ∈ before → ¬ lookupFails post' cause')
    ∧ lookupFails post cause.
Proof.
  induction posts as [|p posts IH]; intros (post & cause & Hin & Hfail).
  - by apply elem_of_nil in Hin.
  - destruct p as [post0|].
    + destruct (decide (length (model.PostFileIds post0) = 0%nat)) as [Hz|Hnz].
      * apply elem_of_cons in Hin as [[= ->]|Hin]; [by destruct Hfail|].
        destruct IH as (before & q & after & c & -> & Hb & Hq); [eauto|].
        exists (Some post0 :: before), q, after, c. split; [done|]. split; [|done].
        intros p' c' [[= ->]|Hin']%elem_of_cons; [by intros [? _]|by apply Hb].
      * destruct (GetForPost (model.PostId post0)) as [cause0|infos] eqn:Hget.
        -- exists [], post0, posts, cause0. split; [done|]. split; [|done].
           intros ? ? Hnil. by apply elem_of_nil in Hnil.
        -- apply elem_of_cons in Hin as [[= ->]|Hin].
           { destruct Hfail as [_ Hf]. congruence. }
           destruct IH as (before & q & after & c & -> & Hb & Hq); [eauto|].
           exists (Some post0 :: before), q, after, c. split; [done|].
           split; [|done].
           intros p' c' [[= ->]|Hin']%elem_of_cons; [|by apply Hb].
           intros [_ Hf]. congruence.
    + apply elem_of_cons in Hin as [?|Hin]; [done|].
      destruct IH as (before & q & after & c & -> & Hb & Hq); [eauto|].
      exists (None :: before), q, after, c. split; [done|]. split; [|done].
      intros p' c' [?|Hin']%elem_of_cons; [done|by apply Hb].
Qed.

Lemma postsLoop_total_ok st posts :
  (∀ post cause, Some post ∈ posts → ¬ lookupFails post cause) →
  ∃ st', postsLoop st posts = inr st'.
Proof.
  revert st. induction posts as [|[post|] posts IH]; intros st Hok; simpl.
  - eauto.
  - destruct (postStep_ok st post) as [st' ->].
    { intros cause. apply Hok. by left. }
    apply IH. intros p c Hin. apply Hok. by right.
  - apply IH. intros p c Hin. apply Hok. by right.
Qed.

(** The second loop, taken apart. *)
Lemma channelsLoop_ok st channels result channelExports :
  channelsLoop st channels result → result = inr channelExports →
  Forall2 (λ channel channelExport,
             buildChannelExport channel
               (default ∅ (membersByChannel st !! ChannelId channel))
               (default [] (elementsByChannel st !! ChannelId channel))
               (inr channelExport))
          channels channelExports.
Proof.
  intros Hloop. revert channelExports.
  induction Hloop as [|channel channels err Hb
                      |channel channels channelExport rest Hb Hrest IH];
    intros channelExports Heq.
  - injection Heq as <-. constructor.
  - done.
  - destruct rest as [err|rest]; [done|]. injection Heq as <-.
    constructor; [done|]. by apply IH.
Qed.

Lemma channelsLoop_failed st channels result err :
  channelsLoop st channels result → result = inl err →
  ∃ channel cause,
    channel ∈ channels
    ∧ GetUsersInChannelDuring (StartTime channel) (EndTime channel)
        (ChannelId channel) = inl cause
    ∧ err = Wrap (NewAppError "buildChannelExport"
                    "ent.get_users_in_channel_during"
                    StatusInternalServerError None) cause.
Proof.
  intros Hloop. revert err.
  induction Hloop as [|channel channels err0 Hb
                      |channel channels channelExport rest Hb Hrest IH];
    intros err Heq.
  - done.
  - injection Heq as <-. inversion Hb; subst.
    eexists channel, _. split; [by left|]. split; [done|done].
  - destruct rest as [err'|rest]; [|done]. injection Heq as <-.
    destruct (IH err' eq_refl) as (c & cause & Hin & Hget & ->).
    exists c, cause. split; [by right|done].
Qed.

Lemma channelsLoop_lookup_failure st channels result channel cause :
  channelsLoop st channels result → channel ∈ channels →
  GetUsersInChannelDuring (StartTime channel) (EndTime channel)
    (ChannelId channel) = inl cause →
  ∃ err, result = inl err.
Proof.
  intros Hloop Hin Hget.
  induction Hloop as [|c channels err0 Hb
                      |c channels channelExport rest Hb Hrest IH].
  - by apply elem_of_nil in Hin.
  - eauto.
  - apply elem_of_cons in Hin as [->|Hin].
    + inversion Hb; subst. congruence.
    + destruct (IH Hin) as [err ->]. eauto.
Qed.

Lemma channelsLoop_total st channels :
  ∃ result, channelsLoop st channels result.
Proof.
  induction channels as [|channel channels [rest IH]].
  - eexists. constructor.
  - destruct (buildChannelExport_total channel
                (default ∅ (membersByChannel st !! ChannelId channel))
                (default [] (elementsByChannel st !! ChannelId channel)))
      as [[err|channelExport] Hb].
    + eexists. by apply channelsLoop_error.
    + eexists. by eapply channelsLoop_next.
Qed.

(** [ActianceExport] always returns. *)
Lemma ActianceExport_total posts exportDirectory :
  ∃ outcome, ActianceExport posts exportDirectory outcome.
Proof.
  destruct (postsLoop emptyBuckets posts) as [err|st] eqn:Hposts.
  - eexists. apply ActianceExport_run. by apply assemble_post_error.
  - destruct (channelsLoop_total st (map_to_list (Channels (metadata st))).*2)
      as [result Hloop].
    eexists. apply ActianceExport_run.
    eapply assemble_channels; [done|by unfold rangeOrder|done].
Qed.

(** ** The assembled document *)

Lemma assemble_ok posts export files :
  assemble posts (inr (export, files)) →
  ∃ st order,
    postsLoop emptyBuckets posts = inr st
    ∧ rangeOrder (Channels (metadata st)) order
    ∧ channelsLoop st order.*2 (inr (rn_Channels export))
    ∧ XMLNS_attr export = XMLNS
    ∧ files = allUploadedFiles st.
Proof.
  inversion 1 as [|st order result Hposts Hr Hloop Heq].
  destruct result as [err|channelExports]; [done|].
  injection Heq as <- <-. exists st, order. by repeat split.
Qed.

Lemma channelsLoop_cons_ok st channel channels channelExport channelExports :
  buildChannelExport channel
    (default ∅ (membersByChannel st !! ChannelId channel))
    (default [] (elementsByChannel st !! ChannelId channel))
    (inr channelExport) →
  channelsLoop st channels (inr channelExports) →
  channelsLoop st (channel :: channels) (inr (channelExport :: channelExports)).
Proof.
  intros Hb Hrest.
  exact (channelsLoop_next st channel channels channelExport
           (inr channelExports) Hb Hrest).
Qed.

Lemma assemble_intro posts st order channelExports :
  postsLoop emptyBuckets posts = inr st →
  rangeOrder (Channels (metadata st)) order →
  channelsLoop st order.*2 (inr channelExports) →
  assemble posts
    (inr ({| XMLNS_attr := XMLNS; rn_Channels := channelExports |},
          allUploadedFiles st)).
Proof.
  intros Hposts Hr Hloop.
  exact (assemble_channels posts st order (inr channelExports) Hposts Hr Hloop).
Qed.

Lemma assemble_channel_error posts st order err :
  postsLoop emptyBuckets posts = inr st →
  rangeOrder (Channels (metadata st)) order →
  channelsLoop st order.*2 (inl err) →
  assemble posts (inl err).
Proof.
  intros Hposts Hr Hloop.
  exact (assemble_channels posts st order (inl err) Hposts Hr Hloop).
Qed.

Lemma ActianceExport_error posts exportDirectory err :
  assemble posts (inl err) →
  ActianceExport posts exportDirectory
    {| warningCount := 0; appErr := Some err; writes := [] |}.
Proof.
  intros Hasm.
  exact (ActianceExport_run posts exportDirectory (inl err) Hasm).
Qed.

Lemma ActianceExport_written posts exportDirectory export files :
  assemble posts (inr (export, files)) →
  ActianceExport posts exportDirectory (writeExport export files exportDirectory).
Proof.
  intros Hasm.
  exact (ActianceExport_run posts exportDirectory (inr (export, files)) Hasm).
Qed.

(** C3. In every channel transcript of the assembled document the events
    come in this order: all join events, then the content events, then
    all leave events. The content events are those of the non-nil input
    records of the channel, record after record in input order and, for
    one record, in the order the pass appended them; nothing re-sorts
    them. *)
Theorem transcript_event_order posts export files channelExport :
  assemble posts (inr (export, files)) →
  channelExport ∈ rn_Channels export →
  transcriptEvents channelExport
  = (JoinEntry <$> JoinEvents channelExport)
    ++ (ElementEntry <$> Elements channelExport)
    ++ (LeaveEntry <$> LeaveEvents channelExport)
  ∧ Elements channelExport
    = filter (λ post, model.ChannelId post = ce_ChannelId channelExport)
        (acceptedPosts posts)
      ≫= postElements.
Proof.
  intros (st & order & Hposts & _ & Hloop & _)%assemble_ok Hin.
  pose proof (channelsLoop_ok _ _ _ _ Hloop eq_refl) as Hall.
  assert (∃ channel,
            buildChannelExport channel
              (default ∅ (membersByChannel st !! ChannelId channel))
              (default [] (elementsByChannel st !! ChannelId channel))
              (inr channelExport)) as (channel & Hb).
  { clear -Hall Hin. revert Hin.
    induction Hall as [|c ce cs ces Hb Hall IH]; intros Hin.
    - by apply elem_of_nil in Hin.
    - apply elem_of_cons in Hin as [->|Hin]; eauto. }
  apply buildChannelExport_inv in Hb
    as (history & joins & leaves & ord & sorted & _ & _ & _ & _ & ->).
  unfold transcriptEvents; simpl. split; [done|].
  rewrite (postsLoop_elements _ _ _ (ChannelId channel) Hposts).
  unfold emptyBuckets; simpl. by rewrite lookup_empty.
Qed.

(** ** Store lookups that fail *)

Lemma ActianceExport_inv posts exportDirectory outcome :
  ActianceExport posts exportDirectory outcome →
  (∃ err, assemble posts (inl err)
     ∧ outcome = {| warningCount := 0; appErr := Some err; writes := [] |})
  ∨ (∃ export files, assemble posts (inr (export, files))
       ∧ outcome = writeExport export files exportDirectory).
Proof.
  inversion 1 as [result Hasm]. destruct result as [err|[export files]].
  - left. eauto.
  - right. eauto.
Qed.

Lemma assemble_failed posts err :
  assemble posts (inl err) →
  postsLoop emptyBuckets posts = inl err
  ∨ ∃ st order,
      postsLoop emptyBuckets posts = inr st
      ∧ rangeOrder (Channels (metadata st)) order
      ∧ channelsLoop st order.*2 (inl err).
Proof.
  inversion 1 as [err' Hposts|st order result Hposts Hr Hloop Heq]; subst.
  - by left.
  - destruct result as [err'|channelExports]; [|done].
    injection Heq as <-. right. eauto.
Qed.

(** C7. If the attachment lookup of a record fails, every run of the
    export returns at the first such record (in input order) with
    warning count 0 and an error wrapping the cause, and issues no write
    to the export backend: no transcript document, no attachment copy, no
    warning manifest. If all attachment lookups succeed and the
    membership-history lookup of a channel fails, every run returns with
    warning count 0 and an error wrapping the cause of a failed history
    lookup, again with no write issued. *)
Theorem lookup_failure_aborts_export posts exportDirectory outcome :
  ActianceExport posts exportDirectory outcome →
  ((∃ post cause, Some post ∈ posts ∧ lookupFails post cause) →
   ∃ before post after cause,
     posts = before ++ Some post :: after
     ∧ (∀ post' cause', Some post' ∈ before → ¬ lookupFails post' cause')
     ∧ lookupFails post cause
     ∧ outcome
       = {| warningCount := 0;
            appErr :=
              Some (Wrap (NewAppError "postToAttachmentsEntries"
                       "ent.message_export.actiance_export.get_attachment_error"
                       StatusInternalServerError None) cause);
            writes := [] |})
  ∧ (∀ st k channel cause,
       postsLoop emptyBuckets posts = inr st →
       Channels (metadata st) !! k = Some channel →
       GetUsersInChannelDuring (StartTime channel) (EndTime channel)
         (ChannelId channel) = inl cause →
       ∃ k' channel' cause',
         Channels (metadata st) !! k' = Some channel'
         ∧ GetUsersInChannelDuring (StartTime channel') (EndTime channel')
             (ChannelId channel') = inl cause'
         ∧ outcome
           = {| warningCount := 0;
                appErr :=
                  Some (Wrap (NewAppError "buildChannelExport"
                                "ent.get_users_in_channel_during"
                                StatusInternalServerError None) cause');
                writes := [] |}).
Proof.
  intros Hrun. split.
  - intros Hfail.
    destruct (posts_first_failure posts Hfail)
      as (before & post & after & cause & -> & Hbefore & Hpost).
    exists before, post, after, cause. repeat split; try done; try apply Hpost.
    pose proof (postsLoop_first_failure emptyBuckets before post after cause
                  Hbefore Hpost) as Hloop.
    apply ActianceExport_inv in Hrun
      as [(err & Hasm & ->)|(export & files & Hasm & ->)].
    + apply assemble_failed in Hasm as [Hl|(st & order & Hl & _)];
        rewrite Hloop in Hl; [by injection Hl as <-|done].
    + apply assemble_ok in Hasm as (st & order & Hl & _).
      by rewrite Hloop in Hl.
  - intros st k channel cause Hposts Hk Hget.
    assert (∀ order, rangeOrder (Channels (metadata st)) order →
                     channel ∈ order.*2) as Hmem.
    { intros order Hr. apply list_elem_of_fmap. exists (k, channel).
      split; [done|]. by apply (rangeOrder_elem_of _ _ _ _ Hr). }
    apply ActianceExport_inv in Hrun
      as [(err & Hasm & ->)|(export & files & Hasm & ->)].
    + apply assemble_failed in Hasm as [Hl|(st' & order & Hl & Hr & Hloop)];
        [congruence|].
      rewrite Hposts in Hl. injection Hl as <-.
      destruct (channelsLoop_failed _ _ _ _ Hloop eq_refl)
        as (channel' & cause' & Hin & Hget' & ->).
      apply list_elem_of_fmap in Hin as ([k' c'] & -> & Hin).
      apply (rangeOrder_elem_of _ _ _ _ Hr) in Hin.
      exists k', c', cause'. by repeat split.
    + apply assemble_ok in Hasm as (st' & order & Hl & Hr & Hloop & _).
      rewrite Hposts in Hl. injection Hl as <-.
      destruct (channelsLoop_lookup_failure _ _ _ _ _ Hloop (Hmem _ Hr) Hget)
        as [err Herr]. done.
Qed.

(** ** Delivery *)

(** The file pass when no copy fails. *)
Lemma copyLoop_no_copy_failure exportDirectory files missingFiles issued :
  Forall (λ fileInfo, copyFails exportDirectory fileInfo = false) files →
  copyLoop exportDirectory files missingFiles issued
  = inr (missingFiles ++ (warningLine <$> filter (λ f, unreadable f = true) files),
         issued ++ copyWrites exportDirectory files).
Proof.
  intros Hall. revert missingFiles issued.
  induction Hall as [|f files Hf Hall IH]; intros missingFiles issued; simpl.
  - by rewrite !app_nil_r.
  - destruct (Reader (model.Path f)) as [err|src] eqn:Hr.
    + rewrite IH.
      rewrite filter_cons_True by (unfold unreadable; by rewrite Hr).
      unfold copyWrites; simpl. rewrite ?Hr. by rewrite <-?app_assoc.
    + destruct (WriteFile _ src) eqn:Hw.
      { unfold copyFails in Hf. by rewrite Hr, Hw in Hf. }
      rewrite IH.
      rewrite filter_cons_False by (unfold unreadable; by rewrite Hr).
      unfold copyWrites; simpl. rewrite ?Hr. by rewrite <-?app_assoc.
Qed.

(** The file pass up to the first copy that fails. *)
Lemma copyLoop_copy_failure exportDirectory before fileInfo after
    attachmentSrc nErr missingFiles issued :
  Forall (λ fileInfo, copyFails exportDirectory fileInfo = false) before →
  Reader (model.Path fileInfo) = inr attachmentSrc →
  WriteFile (path_Join exportDirectory (model.Path fileInfo)) attachmentSrc
  = Some nErr →
  copyLoop exportDirectory (before ++ fileInfo :: after) missingFiles issued
  = inl (nErr,
         (issued ++ copyWrites exportDirectory before)
         ++ [(path_Join exportDirectory (model.Path fileInfo), attachmentSrc)]).
Proof.
  intros Hall Hread Hwrite. revert missingFiles issued.
  induction Hall as [|f files Hf Hall IH]; intros missingFiles issued; simpl.
  - rewrite Hread, Hwrite. by rewrite app_nil_r.
  - destruct (Reader (model.Path f)) as [err|src] eqn:Hr.
    + rewrite IH. unfold copyWrites; simpl. by rewrite ?Hr.
    + destruct (WriteFile _ src) eqn:Hw.
      { unfold copyFails in Hf. by rewrite Hr, Hw in Hf. }
      rewrite IH. unfold copyWrites; simpl. rewrite ?Hr.
      by rewrite <-!app_assoc.
Qed.

(** C8. Once the main document is encoded and written, the file pass
    records one warning line, the word Warning, a colon, the reason, a
    dash between spaces and the path, for every uploaded file that the
    attachment backend cannot open, and goes on with the remaining files.
    When no copy fails, the returned warning count is the number of
    unreadable files; the writes issued are the main document first, then
    the copies of the readable files, then the manifest, whose content is
    the warning lines joined by newlines, exactly when there is at least
    one warning. When the copy of an opened file fails, the function
    returns at that file with the error wrapping the cause, and nothing
    is issued for the files after it. *)
Theorem delivery_warnings (export : RootNode) (files : list model.FileInfo)
    (exportDirectory xmlData : string) :
  xml_Encode export = inr xmlData →
  TryWriteFileContext (path_Join exportDirectory ActianceExportFilename) xmlData
  = None →
  let mainWrite := (path_Join exportDirectory ActianceExportFilename, xmlData) in
  let lines :=
    (λ fileInfo,
       "Warning:" +:+ MissingFileMessage +:+ " - " +:+ model.Path fileInfo)
    <$> filter (λ f, unreadable f = true) files in
  let manifestWrite :=
    (path_Join exportDirectory ActianceWarningFilename,
     String.concat newline lines) in
  let outcome := writeExport export files exportDirectory in
  (Forall (λ fileInfo, copyFails exportDirectory fileInfo = false) files →
   warningCount outcome
   = Z.of_nat (length (filter (λ f, unreadable f = true) files))
   ∧ (lines = [] →
      writes outcome = mainWrite :: copyWrites exportDirectory files
      ∧ appErr outcome = None)
   ∧ (lines ≠ [] →
      writes outcome
      = mainWrite :: copyWrites exportDirectory files ++ [manifestWrite]
      ∧ appErr outcome
        = writeError <$> TryWriteFileContext manifestWrite.1 manifestWrite.2))
  ∧ (∀ before fileInfo after attachmentSrc nErr,
       files = before ++ fileInfo :: after →
       Forall (λ fileInfo, copyFails exportDirectory fileInfo = false) before →
       Reader (model.Path fileInfo) = inr attachmentSrc →
       WriteFile (path_Join exportDirectory (model.Path fileInfo)) attachmentSrc
       = Some nErr →
       appErr outcome = Some (writeError nErr)
       ∧ writes outcome
         = mainWrite :: copyWrites exportDirectory before
           ++ [(path_Join exportDirectory (model.Path fileInfo), attachmentSrc)]).
Proof.
  intros Henc Hmain mainWrite lines manifestWrite outcome.
  subst outcome. unfold writeExport. rewrite Henc, Hmain. split.
  - intros Hall. rewrite (copyLoop_no_copy_failure _ _ _ _ Hall). simpl.
    change (warningLine <$> _) with lines.
    assert (length lines
            = length (filter (λ f, unreadable f = true) files)) as Hlen
      by (unfold lines; by rewrite length_fmap).
    rewrite <-Hlen.
    destruct (Z.gtb_spec (Z.of_nat (length lines)) 0) as [Hpos|Hzero]; simpl.
    + split; [done|]. split; [|done].
      intros Hnil. rewrite Hnil in Hpos. simpl in Hpos. lia.
    + split; [done|]. split; [done|].
      intros Hne. destruct lines; [done|]. simpl in Hzero. lia.
  - intros before fileInfo after src nErr -> Hall Hread Hwrite.
    rewrite (copyLoop_copy_failure _ _ _ _ _ _ _ _ Hall Hread Hwrite).
    simpl. done.
Qed.

(** C10. If the copy of an opened file to the export backend fails, the
    function returns warning count 0 with the error, however many files
    before it could not be read: the warnings gathered so far are
    dropped, and the writes issued are the main document, the copies
    made before and the failed copy, so no warning manifest. *)
Theorem copy_failure_discards_warnings (export : RootNode)
    (before after : list model.FileInfo) (fileInfo : model.FileInfo)
    (exportDirectory xmlData attachmentSrc : string) (nErr : error) :
  xml_Encode export = inr xmlData →
  TryWriteFileContext (path_Join exportDirectory ActianceExportFilename) xmlData
  = None →
  Forall (λ fileInfo, copyFails exportDirectory fileInfo = false) before →
  Reader (model.Path fileInfo) = inr attachmentSrc →
  WriteFile (path_Join exportDirectory (model.Path fileInfo)) attachmentSrc
  = Some nErr →
  writeExport export (before ++ fileInfo :: after) exportDirectory
  = {| warningCount := 0;
       appErr := Some (Wrap (NewAppError "ActianceExport.AtianceExport"
                               "ent.actiance.export.write_file.appError"
                               0 None) nErr);
       writes :=
         (path_Join exportDirectory ActianceExportFilename, xmlData)
         :: copyWrites exportDirectory before
         ++ [(path_Join exportDirectory (model.Path fileInfo), attachmentSrc)] |}.
Proof.
  intros Henc Hmain Hall Hread Hwrite. unfold writeExport.
  rewrite Henc, Hmain.
  by rewrite (copyLoop_copy_failure _ _ _ _ _ _ _ _ Hall Hread Hwrite).
Qed.

(** ** What a transcript holds *)

(** The membership lists of a transcript: the join events are the joins
    of the helper one to one and in its order, never sorted, merged or
    dropped; the leave events are the recorded leaves and one leave per
    user still joined, rearranged by the sort, so their number is the
    number of recorded leaves plus the number of users still joined. *)
Theorem transcript_membership_lists channel members elements channelExport
    channelMembersHistory joins leaves :
  buildChannelExport channel members elements (inr channelExport) →
  GetUsersInChannelDuring (StartTime channel) (EndTime channel)
    (ChannelId channel) = inr channelMembersHistory →
  GetJoinsAndLeavesForChannel (StartTime channel) (EndTime channel)
    channelMembersHistory members = (joins, leaves) →
  JoinEvents channelExport = joinEvent <$> joins
  ∧ LeaveEvents channelExport
    ≡ₚ (leaveEvent <$> leaves)
       ++ (stillJoinedLeave (EndTime channel)
             <$> map_to_list (stillJoinedAfter joins leaves))
  ∧ length (LeaveEvents channelExport)
    = (length leaves + size (stillJoinedAfter joins leaves))%nat.
Proof.
  intros (history' & joins' & leaves' & order & sorted
          & Hh & Hjl & Hr & [Hperm _] & ->)%buildChannelExport_inv Hh' Hjl'.
  rewrite Hh in Hh'. injection Hh' as <-.
  rewrite Hjl in Hjl'. injection Hjl' as <- <-. simpl.
  assert (sorted ≡ₚ (leaveEvent <$> leaves')
                    ++ (stillJoinedLeave (EndTime channel)
                          <$> map_to_list (stillJoinedAfter joins' leaves')))
    as Hsorted.
  { etransitivity; [exact Hperm|]. rewrite leaveEventsUnsorted_eq.
    unfold rangeOrder in Hr. by rewrite Hr. }
  split; [by rewrite joinsLoop_eq|]. split; [done|].
  rewrite Hsorted, length_app, !length_fmap. by rewrite length_map_to_list.
Qed.

Lemma userTypeOf_cases isBot : userTypeOf isBot = "user" ∨ userTypeOf isBot = "bot".
Proof. destruct isBot; [by right|by left]. Qed.

(** Every join and leave event of a transcript repeats the email in its
    corporate email id and has the user type user or bot. A leave event
    is a recorded leave, or it stands at the window end for a user that
    has a join event of the same email and user type: no leave is made
    up for a user who never joined. *)
Theorem transcript_membership_fields channel members elements channelExport
    channelMembersHistory joins leaves :
  buildChannelExport channel members elements (inr channelExport) →
  GetUsersInChannelDuring (StartTime channel) (EndTime channel)
    (ChannelId channel) = inr channelMembersHistory →
  GetJoinsAndLeavesForChannel (StartTime channel) (EndTime channel)
    channelMembersHistory members = (joins, leaves) →
  (∀ j, j ∈ JoinEvents channelExport →
     je_CorporateEmailID j = je_UserEmail j
     ∧ (je_UserType j = "user" ∨ je_UserType j = "bot"))
  ∧ (∀ l, l ∈ LeaveEvents channelExport →
       le_CorporateEmailID l = le_UserEmail l
       ∧ (le_UserType l = "user" ∨ le_UserType l = "bot")
       ∧ ((∃ leave, leave ∈ leaves ∧ l = leaveEvent leave)
          ∨ (LeaveTime l = ce_EndTime channelExport
             ∧ ∃ j, j ∈ JoinEvents channelExport
                    ∧ je_UserEmail j = le_UserEmail l
                    ∧ je_UserType j = le_UserType l))).
Proof.
  intros (history' & joins' & leaves' & order & sorted
          & Hh & Hjl & Hr & [Hperm _] & ->)%buildChannelExport_inv Hh' Hjl'.
  rewrite Hh in Hh'. injection Hh' as <-.
  rewrite Hjl in Hjl'. injection Hjl' as <- <-. simpl.
  rewrite joinsLoop_eq; simpl. split.
  - intros j (join & -> & _)%list_elem_of_fmap. split; [done|].
    apply userTypeOf_cases.
  - intros l Hl. rewrite Hperm, leaveEventsUnsorted_eq in Hl.
    apply elem_of_app in Hl as [Hl|Hl].
    + apply list_elem_of_fmap in Hl as (leave & -> & Hin).
      split; [done|]. split; [apply userTypeOf_cases|]. left. by exists leave.
    + apply list_elem_of_fmap in Hl as ([email info] & -> & Hin).
      apply (rangeOrder_elem_of _ _ _ _ Hr) in Hin.
      apply stillJoinedAfter_lookup in Hin as (join & Hin & <- & -> & _).
      split; [done|]. split; [apply userTypeOf_cases|]. right.
      split; [done|]. exists (joinEvent join).
      split; [|done]. apply list_elem_of_fmap. by exists join.
Qed.

(** Every participant that enters also leaves: for every join event of a
    transcript there is a leave event of the same email, either at the
    window end (the user was still joined) or strictly later than the
    join. *)
Theorem every_join_has_a_leave channel members elements channelExport :
  buildChannelExport channel members elements (inr channelExport) →
  ∀ j, j ∈ JoinEvents channelExport →
    ∃ l, l ∈ LeaveEvents channelExport
         ∧ le_UserEmail l = je_UserEmail j
         ∧ (LeaveTime l = ce_EndTime channelExport ∨ JoinTime j < LeaveTime l).
Proof.
  intros (history & joins & leaves & order & sorted
          & _ & _ & Hr & [Hperm _] & ->)%buildChannelExport_inv; simpl.
  rewrite joinsLoop_eq; simpl.
  intros j (join & -> & Hin)%list_elem_of_fmap; simpl.
  destruct (joins_fold_is_Some joins ∅ join Hin) as [info Hinfo].
  pose proof (joins_fold_lookup _ _ _ _ Hinfo) as (_ & Hmax & _).
  specialize (Hmax join Hin eq_refl).
  destruct (stillJoinedAfter joins leaves !! Email join) as [info'|] eqn:Hafter.
  - exists (stillJoinedLeave (EndTime channel) (Email join, info')).
    split; [|split; [done|by left]].
    rewrite Hperm, leaveEventsUnsorted_eq. apply elem_of_app. right.
    apply list_elem_of_fmap. eexists. split; [done|].
    by apply (rangeOrder_elem_of _ _ _ _ Hr).
  - rewrite stillJoinedAfter_eq in Hafter.
    destruct (leaves_fold_removed _ _ _ _ Hinfo Hafter)
      as (leave & Hl & He & Hlt).
    exists (leaveEvent leave). split; [|split; [done|right; simpl; lia]].
    rewrite Hperm, leaveEventsUnsorted_eq. apply elem_of_app. left.
    apply list_elem_of_fmap. by exists leave.
Qed.

(** ** What the entries of a record hold *)

(** Every entry made for a record is attributed to its author: message
    entries carry the author's email, user type and the preview id, at
    the creation time or at the deletion timestamp of the record; upload
    entries carry the author's email at the creation time, and every
    stop entry has the status Completed. *)
Theorem record_entries_attributed (post : model.MessageExport) :
  ∀ e, e ∈ postElements post →
    match e with
    | PostElement p =>
        pe_UserEmail p = model.UserEmail post
        ∧ pe_UserType p = userTypeOf (model.IsBot post)
        ∧ PreviewsPost p = PreviewID post
        ∧ (PostTime p = model.PostCreateAt post
           ∨ model.PostDeleteAt post = Some (PostTime p))
    | UploadStartElement s =>
        fs_UserEmail s = model.UserEmail post
        ∧ UploadStartTime s = model.PostCreateAt post
    | UploadStopElement s =>
        ft_UserEmail s = model.UserEmail post
        ∧ UploadStopTime s = model.PostCreateAt post
        ∧ Status s = "Completed"
    end.
Proof.
  intros e. unfold postElements.
  intros [->|[He|He]%elem_of_app]%elem_of_cons.
  - simpl. repeat split. by left.
  - unfold deleteEntries in He.
    destruct (model.PostDeleteAt post) as [t|] eqn:Hd; [|by apply elem_of_nil in He].
    destruct (model.PostProps post) as [props|]; [|by apply elem_of_nil in He].
    destruct (t >? 0); [|by apply elem_of_nil in He].
    destruct (json_Unmarshal props) as [m|]; [|by apply elem_of_nil in He].
    destruct (m !! PostPropsDeleteBy); [|by apply elem_of_nil in He].
    apply list_elem_of_singleton in He as ->. simpl. repeat split. by right.
  - unfold postToAttachmentsEntries in He.
    case_bool_decide; [by apply elem_of_nil in He|].
    destruct (GetForPost (model.PostId post)) as [err|fileInfos];
      [by apply elem_of_nil in He|].
    rewrite fileInfos_fold in He; simpl in He.
    apply elem_of_app in He as [He|[He|He]%elem_of_app].
    + by apply list_elem_of_fmap in He as (f & -> & _).
    + by apply list_elem_of_fmap in He as (f & -> & _).
    + apply list_elem_of_bind in He as (f & He & _).
      unfold deleteFileMessage in He.
      destruct (model.PostDeleteAt post) as [t|]; [|by apply elem_of_nil in He].
      destruct (model.DeleteAt f >? 0); [|by apply elem_of_nil in He].
      apply list_elem_of_singleton in He as ->. simpl. repeat split. by right.
Qed.

(** ** What the first loop gathers *)

(** One post changes the buckets of its own channel only. There it
    appends the body entry, the delete entry if any, then all upload
    starts, then all upload stops, then the delete notices of the files:
    the starts of all files of a post come before all of their stops. *)
Theorem post_touches_its_channel_only st post st' :
  postStep st post = inr st' →
  (∀ c, c ≠ model.ChannelId post →
     elementsByChannel st' !! c = elementsByChannel st !! c
     ∧ membersByChannel st' !! c = membersByChannel st !! c)
  ∧ ∃ entries,
      postToAttachmentsEntries post = inr entries
      ∧ elementsByChannel st' !! model.ChannelId post
        = Some (default [] (elementsByChannel st !! model.ChannelId post)
                ++ messageEntry post :: deleteEntries post
                ++ startUploads entries ++ stopUploads entries
                ++ deleteFileMessages entries).
Proof.
  unfold postStep.
  destruct (postToAttachmentsEntries post) as [err|entries]; [done|].
  intros [= <-]; simpl. split.
  - intros c Hne. unfold appendElements.
    by rewrite !lookup_insert_ne by done.
  - exists entries. split; [done|]. unfold appendElements.
    rewrite !lookup_insert_eq; simpl. f_equal. by rewrite <-!app_assoc.
Qed.

Lemma postsLoop_without_nil st posts :
  postsLoop st posts = postsLoop st (Some <$> acceptedPosts posts).
Proof.
  revert st. induction posts as [|[post|] posts IH]; intros st; simpl.
  - done.
  - destruct (postStep st post); [done|]. apply IH.
  - apply IH.
Qed.

Lemma assemble_without_nil posts result :
  assemble posts result ↔ assemble (Some <$> acceptedPosts posts) result.
Proof.
  split.
  - inversion 1 as [err Hposts|st order r Hposts Hr Hloop]; subst.
    + apply assemble_post_error. by rewrite <-postsLoop_without_nil.
    + eapply assemble_channels; [|done|done].
      by rewrite <-postsLoop_without_nil.
  - inversion 1 as [err Hposts|st order r Hposts Hr Hloop]; subst.
    + apply assemble_post_error. by rewrite postsLoop_without_nil.
    + eapply assemble_channels; [|done|done].
      by rewrite postsLoop_without_nil.
Qed.

(** Nil entries of the input are skipped without a trace: the export has
    the same outcomes on an input and on that input with its nil entries
    taken out. *)
Theorem nil_posts_are_ignored posts exportDirectory outcome :
  ActianceExport posts exportDirectory outcome
  ↔ ActianceExport (Some <$> acceptedPosts posts) exportDirectory outcome.
Proof.
  split; inversion 1 as [result Hasm]; subst; apply ActianceExport_run.
  - by apply (proj1 (assemble_without_nil _ _)).
  - by apply (proj2 (assemble_without_nil _ _)).
Qed.

(** The files resolved for a post: none without file ids, else the
    store's answer. *)
Lemma uploadedFiles_of_post post entries :
  postToAttachmentsEntries post = inr entries →
  uploadedFiles entries
  = if bool_decide (length (model.PostFileIds post) = 0%nat) then []
    else match GetForPost (model.PostId post) with
         | inl _ => []
         | inr fileInfos => fileInfos
         end.
Proof.
  unfold postToAttachmentsEntries. case_bool_decide.
  - by intros [= <-].
  - destruct (GetForPost (model.PostId post)) as [err|fileInfos]; [done|].
    intros [= <-]. by rewrite fileInfos_fold.
Qed.

Lemma postsLoop_uploaded posts st st' :
  postsLoop st posts = inr st' →
  allUploadedFiles st'
  = allUploadedFiles st
    ++ (acceptedPosts posts
          ≫= λ post,
               if bool_decide (length (model.PostFileIds post) = 0%nat) then []
               else match GetForPost (model.PostId post) with
                    | inl _ => []
                    | inr fileInfos => fileInfos
                    end).
Proof.
  revert st. induction posts as [|[post|] posts IH]; intros st; simpl.
  - intros [= <-]. by rewrite app_nil_r.
  - destruct (postStep st post) as [err|st1] eqn:Hstep; [done|].
    intros Hloop. rewrite (IH _ Hloop).
    apply postStep_uploaded in Hstep as (entries & Hentries & ->).
    rewrite (uploadedFiles_of_post _ _ Hentries).
    unfold acceptedPosts; simpl. by rewrite <-app_assoc.
  - apply IH.
Qed.

(** The files handed to delivery are the files the store resolved for
    the non-nil posts, post after post in input order and across all
    channels; a post without file ids contributes none, whatever the
    store holds for it. *)
Theorem uploaded_files_in_input_order posts export files :
  assemble posts (inr (export, files)) →
  files
  = acceptedPosts posts
      ≫= λ post,
           if bool_decide (length (model.PostFileIds post) = 0%nat) then []
           else match GetForPost (model.PostId post) with
                | inl _ => []
                | inr fileInfos => fileInfos
                end.
Proof.
  intros (st & order & Hposts & _ & _ & _ & ->)%assemble_ok.
  by rewrite (postsLoop_uploaded _ _ _ Hposts).
Qed.

Lemma postStep_members st post st' c u :
  postStep st post = inr st' →
  default ∅ (membersByChannel st' !! c) !! u
  = if decide (model.ChannelId post = c ∧ model.UserId post = u)
    then Some (channelMemberOf post)
    else default ∅ (membersByChannel st !! c) !! u.
Proof.
  unfold postStep.
  destruct (postToAttachmentsEntries post) as [err|entries]; [done|].
  intros [= <-]; simpl.
  destruct (decide (model.ChannelId post = c)) as [<-|Hc].
  - rewrite lookup_insert_eq; simpl.
    destruct (decide (model.UserId post = u)) as [<-|Hu].
    + rewrite lookup_insert_eq. by rewrite decide_True.
    + rewrite lookup_insert_ne by done.
      rewrite decide_False; [done|]. by intros [_ ?].
  - rewrite lookup_insert_ne by done.
    rewrite decide_False; [done|]. by intros [? _].
Qed.

Lemma postsLoop_members posts st st' c u :
  postsLoop st posts = inr st' →
  default ∅ (membersByChannel st' !! c) !! u
  = match last (filter (λ post, model.ChannelId post = c ∧ model.UserId post = u)
                  (acceptedPosts posts)) with
    | Some post => Some (channelMemberOf post)
    | None => default ∅ (membersByChannel st !! c) !! u
    end.
Proof.
  revert st. induction posts as [|[post|] posts IH]; intros st; simpl.
  - by intros [= <-].
  - destruct (postStep st post) as [err|st1] eqn:Hstep; [done|].
    intros Hloop. rewrite (IH _ Hloop).
    unfold acceptedPosts; simpl. rewrite filter_cons.
    rewrite (postStep_members _ _ _ c u Hstep).
    destruct (decide (model.ChannelId post = c ∧ model.UserId post = u)).
    + rewrite last_cons. by destruct (last _).
    + done.
  - apply IH.
Qed.

(** The member snapshot of a channel keeps, for each user id, the email,
    bot flag and user name of the last non-nil post of that user in the
    channel (a later post overwrites an earlier one), and nothing for a
    user without a post there. *)
Theorem member_snapshot_is_last_post posts st c u :
  postsLoop emptyBuckets posts = inr st →
  default ∅ (membersByChannel st !! c) !! u
  = channelMemberOf
      <$> last (filter (λ post, model.ChannelId post = c ∧ model.UserId post = u)
                  (acceptedPosts posts)).
Proof.
  intros Hposts. rewrite (postsLoop_members _ _ _ c u Hposts).
  destruct (last _); [done|]. simpl. by rewrite lookup_empty.
Qed.

(** The metadata is updated once per non-nil post, in input order, with
    the number of files the store resolved for the post, not with the
    number of its file ids. *)
Theorem metadata_updated_per_post posts st :
  postsLoop emptyBuckets posts = inr st →
  metadata st
  = foldl (λ md post,
             Metadata_Update md post
               (Z.of_nat
                  (length
                     (if bool_decide (length (model.PostFileIds post) = 0%nat)
                      then []
                      else match GetForPost (model.PostId post) with
                           | inl _ => []
                           | inr fileInfos => fileInfos
                           end))))
      (metadata emptyBuckets) (acceptedPosts posts).
Proof.
  generalize emptyBuckets as st0. revert st.
  induction posts as [|[post|] posts IH]; intros st st0; simpl.
  - by intros [= <-].
  - destruct (postStep st0 post) as [err|st1] eqn:Hstep; [done|].
    intros Hloop. rewrite (IH _ _ Hloop). unfold acceptedPosts; simpl.
    f_equal. unfold postStep in Hstep.
    destruct (postToAttachmentsEntries post) as [err|entries] eqn:Hentries;
      [done|].
    injection Hstep as <-; simpl.
    by rewrite (uploadedFiles_of_post _ _ Hentries).
  - apply IH.
Qed.

(** ** The channels of the document *)

(** The assembled document has one transcript per channel of the
    metadata, in the order the metadata was ranged over; a transcript
    carries the id, the window bounds and the display name of its
    channel, and its room id is the type label, the name and the id of
    the channel joined by dashes. *)
Theorem one_transcript_per_channel posts export files :
  assemble posts (inr (export, files)) →
  ∃ st order,
    postsLoop emptyBuckets posts = inr st
    ∧ rangeOrder (Channels (metadata st)) order
    ∧ length (rn_Channels export) = size (Channels (metadata st))
    ∧ Forall2
        (λ channel channelExport,
           ce_ChannelId channelExport = ChannelId channel
           ∧ ce_StartTime channelExport = StartTime channel
           ∧ ce_EndTime channelExport = EndTime channel
           ∧ Perspective channelExport = ChannelDisplayName channel
           ∧ RoomId channelExport
             = ChannelTypeDisplayName (ChannelType channel)
               +:+ " - " +:+ ChannelName channel
               +:+ " - " +:+ ChannelId channel)
        order.*2 (rn_Channels export).
Proof.
  intros (st & order & Hposts & Hr & Hloop & _)%assemble_ok.
  exists st, order. split; [done|]. split; [done|].
  pose proof (channelsLoop_ok _ _ _ _ Hloop eq_refl) as Hall.
  split.
  - rewrite <-(Forall2_length _ _ _ Hall), length_fmap.
    unfold rangeOrder in Hr. by rewrite Hr, length_map_to_list.
  - eapply Forall2_impl; [exact Hall|].
    intros channel channelExport
      (? & ? & ? & ? & ? & _ & _ & _ & _ & ->)%buildChannelExport_inv.
    done.
Qed.

Lemma postsLoop_no_post st posts :
  acceptedPosts posts = [] → postsLoop st posts = inr st.
Proof.
  induction posts as [|[post|] posts IH]; simpl; [done|done|].
  intros Hnil. by apply IH.
Qed.

(** On an input without a non-nil post the export makes no lookup and
    goes straight to delivery with a document without channels and
    without files. *)
Theorem export_of_no_post posts exportDirectory outcome :
  acceptedPosts posts = [] →
  ActianceExport posts exportDirectory outcome →
  outcome
  = writeExport {| XMLNS_attr := XMLNS; rn_Channels := [] |} [] exportDirectory.
Proof.
  intros Hnil Hrun.
  pose proof (postsLoop_no_post emptyBuckets posts Hnil) as Hposts.
  apply ActianceExport_inv in Hrun
    as [(err & Hasm & ->)|(export & files & Hasm & ->)].
  - apply assemble_failed in Hasm as [Hl|(st & order & Hl & Hr & Hloop)];
      [congruence|].
    rewrite Hposts in Hl. injection Hl as <-.
    unfold rangeOrder in Hr; simpl in Hr. rewrite map_to_list_empty in Hr.
    apply Permutation_nil_r in Hr as ->. inversion Hloop.
  - apply assemble_ok in Hasm as (st & order & Hl & Hr & Hloop & Hns & ->).
    rewrite Hposts in Hl. injection Hl as <-.
    unfold rangeOrder in Hr; simpl in Hr. rewrite map_to_list_empty in Hr.
    apply Permutation_nil_r in Hr as ->. simpl in Hloop.
    pose proof (channelsLoop_ok _ _ _ _ Hloop eq_refl) as Hall.
    apply Forall2_nil_inv_l in Hall.
    destruct export as [ns channels]; simpl in *. by subst.
Qed.

(** ** More on delivery *)

Lemma copyFails_true exportDirectory fileInfo :
  copyFails exportDirectory fileInfo = true →
  ∃ attachmentSrc nErr,
    Reader (model.Path fileInfo) = inr attachmentSrc
    ∧ WriteFile (path_Join exportDirectory (model.Path fileInfo)) attachmentSrc
      = Some nErr.
Proof.
  unfold copyFails.
  destruct (Reader (model.Path fileInfo)) as [err|src]; [done|].
  destruct (WriteFile _ src) as [nErr|] eqn:Hw; [|done].
  intros _. by exists src, nErr.
Qed.

Lemma first_copy_failure exportDirectory (files : list model.FileInfo) :
  Forall (λ fileInfo, copyFails exportDirectory fileInfo = false) files
  ∨ ∃ before fileInfo after,
      files = before ++ fileInfo :: after
      ∧ Forall (λ fileInfo, copyFails exportDirectory fileInfo = false) before
      ∧ copyFails exportDirectory fileInfo = true.
Proof.
  induction files as [|f files IH].
  - left. constructor.
  - destruct (copyFails exportDirectory f) eqn:Hf.
    + right. exists [], f, files. split; [done|]. split; [constructor|done].
    + destruct IH as [Hall|(before & g & after & -> & Hbefore & Hg)].
      * left. by constructor.
      * right. exists (f :: before), g, after.
        split; [done|]. split; [by constructor|done].
Qed.

(** The two ways the file pass ends. *)
Lemma copyLoop_cases exportDirectory files missingFiles issued :
  (Forall (λ fileInfo, copyFails exportDirectory fileInfo = false) files
   ∧ copyLoop exportDirectory files missingFiles issued
     = inr (missingFiles
              ++ (warningLine <$> filter (λ f, unreadable f = true) files),
            issued ++ copyWrites exportDirectory files))
  ∨ ∃ before fileInfo after attachmentSrc nErr,
      files = before ++ fileInfo :: after
      ∧ Reader (model.Path fileInfo) = inr attachmentSrc
      ∧ WriteFile (path_Join exportDirectory (model.Path fileInfo))
          attachmentSrc = Some nErr
      ∧ copyLoop exportDirectory files missingFiles issued
        = inl (nErr,
               (issued ++ copyWrites exportDirectory before)
               ++ [(path_Join exportDirectory (model.Path fileInfo),
                    attachmentSrc)]).
Proof.
  destruct (first_copy_failure exportDirectory files)
    as [Hall|(before & f & after & -> & Hbefore & Hf)].
  - left. split; [done|]. by apply copyLoop_no_copy_failure.
  - right. apply copyFails_true in Hf as (src & nErr & Hread & Hwrite).
    exists before, f, after, src, nErr.
    split; [done|]. split; [done|]. split; [done|].
    by apply copyLoop_copy_failure.
Qed.

Lemma elem_of_copyWrites exportDirectory files w :
  w ∈ copyWrites exportDirectory files →
  ∃ fileInfo attachmentSrc,
    fileInfo ∈ files
    ∧ Reader (model.Path fileInfo) = inr attachmentSrc
    ∧ w = (path_Join exportDirectory (model.Path fileInfo), attachmentSrc).
Proof.
  unfold copyWrites. intros (f & Hin & Hw)%list_elem_of_omap.
  destruct (Reader (model.Path f)) as [err|src] eqn:Hread; [done|].
  injection Hw as <-. by exists f, src.
Qed.

(** Delivery returns no error exactly when the document was encoded and
    written, no copy of an opened file failed, and the manifest, if there
    was a file that could not be opened, was written: files that cannot
    be opened never make the export fail. *)
Theorem delivery_succeeds_iff (export : RootNode) (files : list model.FileInfo)
    (exportDirectory : string) :
  appErr (writeExport export files exportDirectory) = None
  ↔ ∃ xmlData,
      xml_Encode export = inr xmlData
      ∧ TryWriteFileContext
          (path_Join exportDirectory ActianceExportFilename) xmlData = None
      ∧ Forall (λ fileInfo, copyFails exportDirectory fileInfo = false) files
      ∧ (filter (λ f, unreadable f = true) files = []
         ∨ TryWriteFileContext
             (path_Join exportDirectory ActianceWarningFilename)
             (String.concat newline
                (warningLine <$> filter (λ f, unreadable f = true) files))
           = None).
Proof.
  unfold writeExport.
  destruct (xml_Encode export) as [err|xmlData] eqn:Henc.
  { split; [done|]. by intros (? & ? & _). }
  destruct (TryWriteFileContext _ xmlData) as [err|] eqn:Hmain.
  { split; [done|]. intros (x & [= <-] & Hx & _). congruence. }
  destruct (copyLoop_cases exportDirectory files []
              [(path_Join exportDirectory ActianceExportFilename, xmlData)])
    as [[Hall ->]
       |(before & f & after & src & nErr & -> & Hread & Hwrite & ->)].
  - simpl. rewrite length_fmap.
    destruct (filter (λ f, unreadable f = true) files) as [|f unread] eqn:Hf;
      simpl.
    + split; [|done]. intros _. exists xmlData. repeat split; try done.
      by left.
    + split.
      * intros Herr%fmap_None. exists xmlData. repeat split; try done.
        by right.
      * intros (x & [= <-] & _ & _ & [?| ->]); done.
  - simpl. split; [done|].
    intros (x & _ & _ & Hall & _).
    apply Forall_app in Hall as [_ Hall]. apply Forall_cons in Hall as [Hf _].
    unfold copyFails in Hf. by rewrite Hread, Hwrite in Hf.
Qed.

(** The returned warning count is never negative and never more than the
    number of uploaded files that cannot be opened; it is positive only
    if the document was written and no copy failed. *)
Theorem warning_count_bounds (export : RootNode) (files : list model.FileInfo)
    (exportDirectory : string) :
  0 ≤ warningCount (writeExport export files exportDirectory)
    ≤ Z.of_nat (length (filter (λ f, unreadable f = true) files))
  ∧ Z.of_nat (length (filter (λ f, unreadable f = true) files))
    ≤ Z.of_nat (length files)
  ∧ (0 < warningCount (writeExport export files exportDirectory) →
     (∃ xmlData,
        xml_Encode export = inr xmlData
        ∧ TryWriteFileContext
            (path_Join exportDirectory ActianceExportFilename) xmlData = None)
     ∧ Forall (λ fileInfo, copyFails exportDirectory fileInfo = false) files).
Proof.
  split; [|split].
  - unfold writeExport.
    destruct (xml_Encode export) as [err|xmlData]; [simpl; lia|].
    destruct (TryWriteFileContext _ xmlData); [simpl; lia|].
    destruct (copyLoop_cases exportDirectory files []
                [(path_Join exportDirectory ActianceExportFilename, xmlData)])
      as [[Hall ->]
         |(before & f & after & src & nErr & -> & Hread & Hwrite & ->)];
      [|simpl; lia].
    cbn [app]. rewrite length_fmap.
    destruct (_ >? 0); simpl; lia.
  - pose proof (length_filter (λ f, unreadable f = true) files). lia.
  - unfold writeExport.
    destruct (xml_Encode export) as [err|xmlData]; [simpl; lia|].
    destruct (TryWriteFileContext _ xmlData) eqn:Hmain; [simpl; lia|].
    destruct (copyLoop_cases exportDirectory files []
                [(path_Join exportDirectory ActianceExportFilename, xmlData)])
      as [[Hall ->]
         |(before & f & after & src & nErr & -> & Hread & Hwrite & ->)];
      [|simpl; lia].
    intros _. split; [by exists xmlData|done].
Qed.

(** Delivery writes nothing but the document, copies of uploaded files
    and the manifest. When the document cannot be encoded nothing is
    written; otherwise the document is the first write, and every later
    write is the copy of an uploaded file that opened, under the export
    directory at the path of the file, or, with a positive warning count,
    the manifest. *)
Theorem delivery_writes_shape (export : RootNode)
    (files : list model.FileInfo) (exportDirectory : string) :
  let outcome := writeExport export files exportDirectory in
  (writes outcome = [] ∧ ∃ err, xml_Encode export = inl err)
  ∨ ∃ xmlData rest,
      xml_Encode export = inr xmlData
      ∧ writes outcome
        = (path_Join exportDirectory ActianceExportFilename, xmlData) :: rest
      ∧ ∀ w, w ∈ rest →
          (∃ fileInfo attachmentSrc,
             fileInfo ∈ files
             ∧ Reader (model.Path fileInfo) = inr attachmentSrc
             ∧ w = (path_Join exportDirectory (model.Path fileInfo),
                    attachmentSrc))
          ∨ (0 < warningCount outcome
             ∧ w = (path_Join exportDirectory ActianceWarningFilename,
                    String.concat newline
                      (warningLine
                         <$> filter (λ f, unreadable f = true) files))).
Proof.
  intros outcome. subst outcome. unfold writeExport.
  destruct (xml_Encode export) as [err|xmlData]; [left; eauto|].
  right. exists xmlData.
  destruct (TryWriteFileContext _ xmlData).
  { exists []. repeat split. intros w Hw. by apply elem_of_nil in Hw. }
  destruct (copyLoop_cases exportDirectory files []
              [(path_Join exportDirectory ActianceExportFilename, xmlData)])
    as [[Hall ->]
       |(before & f & after & src & nErr & -> & Hread & Hwrite & ->)].
  - cbn [app].
    destruct (Z.gtb_spec (Z.of_nat (length
                (warningLine <$> filter (λ f, unreadable f = true) files))) 0)
      as [Hpos|Hzero].
    + eexists. split; [done|]. split; [done|]. cbn [writes warningCount].
      intros w [Hw|Hw]%elem_of_app.
      * left. by apply elem_of_copyWrites.
      * apply list_elem_of_singleton in Hw as ->. right. by split.
    + eexists. split; [done|]. split; [done|]. cbn [writes].
      intros w Hw. left. by apply elem_of_copyWrites.
  - eexists. split; [done|]. split; [done|].
    intros w [Hw|Hw]%elem_of_app.
    + left. apply elem_of_copyWrites in Hw as (g & s & Hin & ? & ?).
      exists g, s. split; [|done]. apply elem_of_app. by left.
    + apply list_elem_of_singleton in Hw as ->. left.
      exists f, src. split; [|done]. apply elem_of_app. right. by left.
Qed.

End Properties.

(** ** The properties on the scenarios *)

(** The leave events of the first scenario before and after the sort. *)
Example scenario_unsorted :
  leaveEventsUnsorted 2000 Scenario.joins Scenario.leaves
    [(Scenario.alice, {| sj_Time := 1000; sj_Type := "user" |})]
  = [Scenario.leave 1600 Scenario.carol "user";
     Scenario.leave 1600 Scenario.bob "user";
     Scenario.leave 2000 Scenario.alice "user"].
Proof. reflexivity. Qed.

Example scenario_sorted :
  sortSliceStable leaveLess
    [Scenario.leave 1600 Scenario.carol "user";
     Scenario.leave 1600 Scenario.bob "user";
     Scenario.leave 2000 Scenario.alice "user"]
  = [Scenario.leave 1600 Scenario.bob "user";
     Scenario.leave 1600 Scenario.carol "user";
     Scenario.leave 2000 Scenario.alice "user"].
Proof. vm_compute. reflexivity. Qed.

Lemma scenario_rangeOrder :
  rangeOrder (stillJoinedAfter Scenario.joins Scenario.leaves)
    [(Scenario.alice, {| sj_Time := 1000; sj_Type := "user" |})].
Proof. unfold rangeOrder. vm_compute. reflexivity. Defined.


Lemma scenario_sortSlice :
  sortSlice leaveLess
    (leaveEventsUnsorted 2000 Scenario.joins Scenario.leaves
       [(Scenario.alice, {| sj_Time := 1000; sj_Type := "user" |})])
    [Scenario.leave 1600 Scenario.bob "user";
     Scenario.leave 1600 Scenario.carol "user";
     Scenario.leave 2000 Scenario.alice "user"].
Proof.
  rewrite scenario_unsorted, <-scenario_sorted.
  apply sortSliceStable_sortSlice.
Qed.

(** The transcript of the scenario is a result of [buildChannelExport]. *)
Lemma scenario_buildChannelExport members :
  buildChannelExport (env := Scenario.collaborators) Scenario.channel members
    Scenario.elements (inr Scenario.transcript).
Proof.
  apply (buildChannelExport_ok (env := Scenario.collaborators)
           Scenario.channel members Scenario.elements [] Scenario.joins
           Scenario.leaves
           [(Scenario.alice, {| sj_Time := 1000; sj_Type := "user" |})]
           [Scenario.leave 1600 Scenario.bob "user";
            Scenario.leave 1600 Scenario.carol "user";
            Scenario.leave 2000 Scenario.alice "user"]).
  - reflexivity.
  - reflexivity.
  - exact scenario_rangeOrder.
  - exact scenario_sortSlice.
Qed.

Lemma leave_events_sorted_witness :
  buildChannelExport (env := Scenario.collaborators) Scenario.channel ∅
    Scenario.elements (inr Scenario.transcript)
  ∧ ∀ (i j : nat) a b,
      LeaveEvents Scenario.transcript !! i = Some a →
      LeaveEvents Scenario.transcript !! j = Some b →
      (LeaveTime a < LeaveTime b → (i < j)%nat)
      ∧ (LeaveTime a = LeaveTime b →
         String.ltb (le_UserEmail a) (le_UserEmail b) = true → (i < j)%nat).
Proof.
  split; [apply scenario_buildChannelExport|].
  apply (leave_events_sorted (env := Scenario.collaborators) Scenario.channel ∅
           Scenario.elements Scenario.transcript
           (scenario_buildChannelExport ∅)).
Defined.

(** The export scenario up to the call of [writeExport]. *)
Lemma scenario_assemble :
  assemble (env := Scenario.collaborators) Scenario.posts
    (inr ({| XMLNS_attr := XMLNS; rn_Channels := [Scenario.transcript] |},
          [Scenario.report])).
Proof.
  destruct (postsLoop (env := Scenario.collaborators) emptyBuckets
              Scenario.posts) as [err|st] eqn:Hposts; [by vm_compute in Hposts|].
  assert (allUploadedFiles st = [Scenario.report]
          ∧ default [] (elementsByChannel st !! "c1") = Scenario.elements
          ∧ Channels (metadata st) = {[ "c1" := Scenario.channel ]})
    as (Hfiles & Helements & Hchannels).
  { vm_compute in Hposts. injection Hposts as <-. by vm_compute. }
  rewrite <-Hfiles.
  apply (assemble_intro (env := Scenario.collaborators) Scenario.posts st
           [("c1", Scenario.channel)] [Scenario.transcript] Hposts).
  - unfold rangeOrder. rewrite Hchannels. by rewrite map_to_list_singleton.
  - simpl. apply channelsLoop_cons_ok; [|apply channelsLoop_done].
    simpl. rewrite Helements. apply scenario_buildChannelExport.
Qed.

Lemma transcript_event_order_witness :
  assemble (env := Scenario.collaborators) Scenario.posts
    (inr ({| XMLNS_attr := XMLNS; rn_Channels := [Scenario.transcript] |},
          [Scenario.report]))
  ∧ Scenario.transcript ∈ [Scenario.transcript]
  ∧ transcriptEvents Scenario.transcript
    = (JoinEntry <$> JoinEvents Scenario.transcript)
      ++ (ElementEntry <$> Scenario.elements)
      ++ (LeaveEntry <$> LeaveEvents Scenario.transcript)
  ∧ Scenario.elements
    = filter (λ post, model.ChannelId post = "c1")
        (acceptedPosts Scenario.posts)
      ≫= postElements (env := Scenario.collaborators).
Proof.
  split; [exact scenario_assemble|].
  split; [by left|].
  apply (transcript_event_order (env := Scenario.collaborators) Scenario.posts
           _ _ Scenario.transcript scenario_assemble).
  by left.
Defined.

(** A record that carries the deletion timestamp 0 and whose blob holds
    the deleted-by key yields the body entry alone: the guard of line 124
    asks for a strictly positive timestamp. *)
Lemma zero_deletion_timestamp_no_delete_entry :
  let post := Scenario.post "p4" "oops" 1300 (Some 0)
                (Some Scenario.deletedProps) [] in
  model.PostDeleteAt post = Some 0
  ∧ (∃ props,
       json_Unmarshal (Collaborators := Scenario.collaborators)
         Scenario.deletedProps = Some props
       ∧ is_Some
           (props !! PostPropsDeleteBy (Collaborators := Scenario.collaborators)))
  ∧ postElements (env := Scenario.collaborators) post
    = [Scenario.message 1300 "oops"].
Proof.
  split; [reflexivity|]. split; [|reflexivity].
  exists {[ "deleteBy" := () ]}. split; [reflexivity|].
  by rewrite lookup_singleton_eq.
Qed.

(** The same record with the deletion timestamp 1400 has both entries. *)
Example positive_deletion_timestamp_delete_entry :
  postElements (env := Scenario.collaborators)
    (Scenario.post "p3" "oops" 1300 (Some 1400) (Some Scenario.deletedProps) [])
  = [Scenario.message 1300 "oops"; Scenario.message 1400 "delete oops"].
Proof. reflexivity. Qed.

(** The attachment entries of the post [p1]. *)
Example attachment_entries_of_p1 :
  postToAttachmentsEntries (env := Scenario.collaborators)
    (Scenario.post "p1" "hello" 1200 None None ["f1"])
  = inr {| startUploads :=
             [UploadStartElement
                {| fs_UserEmail := Scenario.alice; UploadStartTime := 1200;
                   fs_Filename := "report.pdf";
                   fs_FilePath := "files/report.pdf" |}];
           stopUploads :=
             [UploadStopElement
                {| ft_UserEmail := Scenario.alice; UploadStopTime := 1200;
                   ft_Filename := "report.pdf";
                   ft_FilePath := "files/report.pdf";
                   Status := "Completed" |}];
           uploadedFiles := [Scenario.report];
           deleteFileMessages := [] |}.
Proof. reflexivity. Qed.

(** The post [p2] is deleted at 1800 and its file was deleted: one delete
    notice, at 1800. *)
Lemma attachment_delete_notices_witness :
  ∃ entries,
    postToAttachmentsEntries (env := Scenario.collaborators)
      (Scenario.post "p2" "draft" 1250 (Some 1800) None ["f2"]) = inr entries
    ∧ deleteFileMessages entries
      = [Scenario.message 1800 "delete files/draft.txt"].
Proof.
  destruct (attachment_delete_notices (env := Scenario.collaborators)
              (Scenario.post "p2" "draft" 1250 (Some 1800) None ["f2"])
              [Scenario.draft])
    as (entries & Hentries & Hnotices & _).
  - simpl. lia.
  - reflexivity.
  - exists entries. split; [exact Hentries|]. rewrite Hnotices. reflexivity.
Defined.






(** The store cannot look up the file of the second post: the export
    returns the error, nothing is written. *)
Lemma scenario_attachment_lookup_fails :
  ActianceExport (env := Scenario.collaborators) Scenario.failingPosts "out"
    {| warningCount := 0;
       appErr :=
         Some (Wrap (NewAppError "postToAttachmentsEntries"
                       "ent.message_export.actiance_export.get_attachment_error"
                       StatusInternalServerError None) "connection refused");
       writes := [] |}.
Proof. apply ActianceExport_error, assemble_post_error. reflexivity. Qed.

Lemma lookup_failure_aborts_export_witness :
  ∃ before post after cause,
    Scenario.failingPosts = before ++ Some post :: after
    ∧ (∀ post' cause', Some post' ∈ before →
         ¬ lookupFails (env := Scenario.collaborators) post' cause')
    ∧ lookupFails (env := Scenario.collaborators) post cause
    ∧ {| warningCount := 0;
         appErr :=
           Some (Wrap (NewAppError "postToAttachmentsEntries"
                         "ent.message_export.actiance_export.get_attachment_error"
                         StatusInternalServerError None) "connection refused");
         writes := [] |}
      = {| warningCount := 0;
           appErr :=
             Some (Wrap (NewAppError "postToAttachmentsEntries"
                           "ent.message_export.actiance_export.get_attachment_error"
                           StatusInternalServerError None) cause);
           writes := [] |}.
Proof.
  apply (lookup_failure_aborts_export (env := Scenario.collaborators)
           Scenario.failingPosts "out" _ scenario_attachment_lookup_fails).
  exists (Scenario.post "p9" "lost" 1250 None None ["f9"]), "connection refused".
  split; [right; by left|]. split; [simpl; lia|reflexivity].
Defined.

(** The history lookup of the channel fails: the same, after the first
    loop went through. *)
Example scenario_history_lookup_fails :
  ActianceExport (env := Scenario.historyFails) Scenario.posts "out"
    {| warningCount := 0;
       appErr :=
         Some (Wrap (NewAppError "buildChannelExport"
                       "ent.get_users_in_channel_during"
                       StatusInternalServerError None) "connection refused");
       writes := [] |}.
Proof.
  destruct (postsLoop (env := Scenario.historyFails) emptyBuckets
              Scenario.posts) as [err|st] eqn:Hposts; [by vm_compute in Hposts|].
  assert (Channels (metadata st) = {[ "c1" := Scenario.channel ]}) as Hchannels.
  { vm_compute in Hposts. injection Hposts as <-. by vm_compute. }
  apply ActianceExport_error.
  apply (assemble_channel_error (env := Scenario.historyFails) Scenario.posts st
           [("c1", Scenario.channel)] _ Hposts).
  - unfold rangeOrder. rewrite Hchannels. by rewrite map_to_list_singleton.
  - simpl. apply channelsLoop_error.
    by apply (buildChannelExport_history_error (env := Scenario.historyFails)).
Qed.

(** Delivery with one readable and one unreadable file. *)
Lemma delivery_warnings_witness :
  warningCount
    (writeExport (env := Scenario.collaborators) Scenario.root
       [Scenario.report; Scenario.draft] "out") = 1
  ∧ writes
      (writeExport (env := Scenario.collaborators) Scenario.root
         [Scenario.report; Scenario.draft] "out")
    = [("out/actiance_export.xml", "<FileDump/>");
       ("out/files/report.pdf", "content");
       ("out/warning.txt", "Warning:File missing - files/draft.txt")]
  ∧ appErr
      (writeExport (env := Scenario.collaborators) Scenario.root
         [Scenario.report; Scenario.draft] "out") = None.
Proof.
  destruct (delivery_warnings (env := Scenario.collaborators) Scenario.root
              [Scenario.report; Scenario.draft] "out" "<FileDump/>"
              eq_refl eq_refl) as [Hok _].
  destruct Hok as (Hcount & _ & Hmanifest).
  - repeat constructor.
  - destruct Hmanifest as [Hwrites Herr]; [discriminate|].
    rewrite Hcount, Hwrites, Herr. repeat split.
Defined.

(** Delivery when the draft cannot be read and the copy of the report
    then fails. *)
Lemma copy_failure_discards_warnings_witness :
  unreadable (env := Scenario.diskFull) Scenario.draft = true
  ∧ writeExport (env := Scenario.diskFull) Scenario.root
      [Scenario.draft; Scenario.report] "out"
    = {| warningCount := 0;
         appErr :=
           Some (Wrap (NewAppError "ActianceExport.AtianceExport"
                         "ent.actiance.export.write_file.appError" 0 None)
                   "disk full");
         writes :=
           [("out/actiance_export.xml", "<FileDump/>");
            ("out/files/report.pdf", "content")] |}.
Proof.
  split; [reflexivity|].
  apply (copy_failure_discards_warnings (env := Scenario.diskFull)
           Scenario.root [Scenario.draft] [] Scenario.report "out"
           "<FileDump/>" "content" "disk full").
  - reflexivity.
  - reflexivity.
  - repeat constructor.
  - reflexivity.
  - reflexivity.
Defined.

(** ** Further properties on the scenarios *)

(** Two joins of Bob at the same time, the first as a user, the second
    as a bot: the entry kept is the first one. *)
Lemma still_joined_entry_is_first_latest_join_witness :
  ∃ before join after,
    [Scenario.member 1500 Scenario.bob false;
     Scenario.member 1500 Scenario.bob true]
    = before ++ join :: after
    ∧ Email join = Scenario.bob
    ∧ {| sj_Time := 1500; sj_Type := "user" |} = joinInfo join
    ∧ (∀ j, j ∈ before → Email j = Scenario.bob → Datetime j < Datetime join)
    ∧ (∀ j, j ∈ after → Email j = Scenario.bob → Datetime j ≤ Datetime join).
Proof.
  apply (still_joined_entry_is_first_latest_join
           [Scenario.member 1500 Scenario.bob false;
            Scenario.member 1500 Scenario.bob true] []).
  reflexivity.
Defined.

Lemma transcript_membership_lists_witness :
  JoinEvents Scenario.transcript = joinEvent <$> Scenario.joins
  ∧ LeaveEvents Scenario.transcript
    ≡ₚ (leaveEvent <$> Scenario.leaves)
       ++ (stillJoinedLeave 2000
             <$> map_to_list (stillJoinedAfter Scenario.joins Scenario.leaves))
  ∧ length (LeaveEvents Scenario.transcript)
    = (length Scenario.leaves
       + size (stillJoinedAfter Scenario.joins Scenario.leaves))%nat.
Proof.
  apply (transcript_membership_lists (env := Scenario.collaborators)
           Scenario.channel ∅ Scenario.elements Scenario.transcript []
           Scenario.joins Scenario.leaves (scenario_buildChannelExport ∅)).
  - reflexivity.
  - reflexivity.
Defined.

Lemma transcript_membership_fields_witness :
  (∀ j, j ∈ JoinEvents Scenario.transcript →
     je_CorporateEmailID j = je_UserEmail j
     ∧ (je_UserType j = "user" ∨ je_UserType j = "bot"))
  ∧ (∀ l, l ∈ LeaveEvents Scenario.transcript →
       le_CorporateEmailID l = le_UserEmail l
       ∧ (le_UserType l = "user" ∨ le_UserType l = "bot")
       ∧ ((∃ leave, leave ∈ Scenario.leaves ∧ l = leaveEvent leave)
          ∨ (LeaveTime l = ce_EndTime Scenario.transcript
             ∧ ∃ j, j ∈ JoinEvents Scenario.transcript
                    ∧ je_UserEmail j = le_UserEmail l
                    ∧ je_UserType j = le_UserType l))).
Proof.
  apply (transcript_membership_fields (env := Scenario.collaborators)
           Scenario.channel ∅ Scenario.elements Scenario.transcript []
           Scenario.joins Scenario.leaves (scenario_buildChannelExport ∅)).
  - reflexivity.
  - reflexivity.
Defined.

(** Bob, who joined at 1500, has a leave later than that. *)
Lemma every_join_has_a_leave_witness :
  ∃ l, l ∈ LeaveEvents Scenario.transcript
       ∧ le_UserEmail l = Scenario.bob
       ∧ (LeaveTime l = 2000 ∨ 1500 < LeaveTime l).
Proof.
  apply (every_join_has_a_leave (env := Scenario.collaborators)
           Scenario.channel ∅ Scenario.elements Scenario.transcript
           (scenario_buildChannelExport ∅) (Scenario.enter 1500 Scenario.bob)).
  right. right. by left.
Defined.

(** The delete entry of the deleted post is Alice's, at 1400. *)
Lemma record_entries_attributed_witness :
  pe_UserEmail
    {| pe_UserEmail := Scenario.alice; pe_UserType := "user";
       PostTime := 1400; Message := "delete oops"; PreviewsPost := "" |}
  = Scenario.alice
  ∧ "user" = userTypeOf false
  ∧ "" = Scenario.noPreview
           (Scenario.post "p3" "oops" 1300 (Some 1400)
              (Some Scenario.deletedProps) [])
  ∧ (1400 = 1300 ∨ Some 1400 = Some 1400).
Proof.
  apply (record_entries_attributed (env := Scenario.collaborators)
           (Scenario.post "p3" "oops" 1300 (Some 1400)
              (Some Scenario.deletedProps) [])
           (Scenario.message 1400 "delete oops")).
  right. by left.
Defined.

(** The first post of the scenario, on empty buckets. *)
Lemma post_touches_its_channel_only_witness :
  ∃ st',
    postStep (env := Scenario.collaborators) emptyBuckets
      (Scenario.post "p1" "hello" 1200 None None ["f1"]) = inr st'
    ∧ elementsByChannel st' !! "c2" = None
    ∧ ∃ entries,
        postToAttachmentsEntries (env := Scenario.collaborators)
          (Scenario.post "p1" "hello" 1200 None None ["f1"]) = inr entries
        ∧ elementsByChannel st' !! "c1"
          = Some ([Scenario.message 1200 "hello"]
                  ++ startUploads entries ++ stopUploads entries
                  ++ deleteFileMessages entries).
Proof.
  destruct (postStep (env := Scenario.collaborators) emptyBuckets
              (Scenario.post "p1" "hello" 1200 None None ["f1"]))
    as [err|st'] eqn:Hstep; [by vm_compute in Hstep|].
  exists st'. split; [done|].
  destruct (post_touches_its_channel_only (env := Scenario.collaborators)
              _ _ _ Hstep) as [Hother Hown].
  split; [|exact Hown].
  destruct (Hother "c2") as [-> _]; done.
Defined.

Lemma uploaded_files_in_input_order_witness :
  [Scenario.report]
  = acceptedPosts Scenario.posts
      ≫= λ post,
           if bool_decide (length (model.PostFileIds post) = 0%nat) then []
           else match Scenario.filesOf (model.PostId post) with
                | inl _ => []
                | inr fileInfos => fileInfos
                end.
Proof.
  apply (uploaded_files_in_input_order (env := Scenario.collaborators)
           Scenario.posts _ _ scenario_assemble).
Defined.

Lemma scenario_postsLoop :
  ∃ st, postsLoop (env := Scenario.collaborators) emptyBuckets Scenario.posts
        = inr st.
Proof.
  destruct (postsLoop (env := Scenario.collaborators) emptyBuckets
              Scenario.posts) as [err|st] eqn:Hposts; [by vm_compute in Hposts|].
  by exists st.
Qed.

(** Alice is the member snapshot of the user [u1] in [c1]. *)
Lemma member_snapshot_is_last_post_witness :
  ∃ st,
    postsLoop (env := Scenario.collaborators) emptyBuckets Scenario.posts
    = inr st
    ∧ default ∅ (membersByChannel st !! "c1") !! "u1"
      = Some {| cm_Email := Scenario.alice; cm_UserId := "u1";
                cm_IsBot := false; cm_Username := "alice" |}.
Proof.
  destruct scenario_postsLoop as [st Hposts]. exists st. split; [done|].
  rewrite (member_snapshot_is_last_post (env := Scenario.collaborators)
             Scenario.posts st "c1" "u1" Hposts).
  reflexivity.
Defined.

(** Two posts and one resolved file are counted. *)
Lemma metadata_updated_per_post_witness :
  ∃ st,
    postsLoop (env := Scenario.collaborators) emptyBuckets Scenario.posts
    = inr st
    ∧ MessagesCount (metadata st) = 2
    ∧ AttachmentsCount (metadata st) = 1.
Proof.
  destruct scenario_postsLoop as [st Hposts]. exists st. split; [done|].
  rewrite (metadata_updated_per_post (env := Scenario.collaborators)
             Scenario.posts st Hposts).
  split; reflexivity.
Defined.

Lemma one_transcript_per_channel_witness :
  ∃ st order,
    postsLoop (env := Scenario.collaborators) emptyBuckets Scenario.posts
    = inr st
    ∧ rangeOrder (Channels (metadata st)) order
    ∧ length [Scenario.transcript] = size (Channels (metadata st))
    ∧ Forall2
        (λ channel channelExport,
           ce_ChannelId channelExport = ChannelId channel
           ∧ ce_StartTime channelExport = StartTime channel
           ∧ ce_EndTime channelExport = EndTime channel
           ∧ Perspective channelExport = ChannelDisplayName channel
           ∧ RoomId channelExport
             = Scenario.typeName (ChannelType channel)
               +:+ " - " +:+ ChannelName channel
               +:+ " - " +:+ ChannelId channel)
        order.*2 [Scenario.transcript].
Proof.
  apply (one_transcript_per_channel (env := Scenario.collaborators)
           Scenario.posts _ _ scenario_assemble).
Defined.

(** An input of two nil entries. *)
Lemma export_of_no_post_witness :
  ∃ outcome,
    ActianceExport (env := Scenario.collaborators) [None; None] "out" outcome
    ∧ outcome
      = {| warningCount := 0; appErr := None;
           writes := [("out/actiance_export.xml", "<FileDump/>")] |}.
Proof.
  destruct (ActianceExport_total (env := Scenario.collaborators)
              [None; None] "out") as [outcome Hrun].
  exists outcome. split; [done|].
  rewrite (export_of_no_post (env := Scenario.collaborators) [None; None]
             "out" outcome eq_refl Hrun).
  reflexivity.
Defined.
